(** * lin_mpc_eigen: the OSQP adapter and the MPC rollout, embedded in Rocq

    The development follows the sources:
    - [src/OsqpEigenOptimization.cpp] (box+affine layout, with time limit):
      module [BoxAffine];
    - the second [OsqpEigenOptimization.cpp] (inequality-only layout):
      module [IneqOnly];
    - [include/LinMpcEigen.hpp] (declarations of [LinearSystem] and [MPC]):
      modules [LinearSystemModel] and [Rollout].

    Scalars are IEEE doubles ([PrimFloat.float]); matrix sizes are
    [Eigen::Index] values (64-bit signed, written as [Z]); the [uint32_t]
    offsets of the sources are [Z] values reduced modulo [2^32]. *)

From Stdlib Require Import ZArith Lia List String Floats Bool Ring.
From stdpp Require Import gmap.

Set Warnings "-inexact-float".
Local Open Scope Z_scope.

(** ** Scalars, vectors and machine integers *)

Abbreviation VecNd := (list float).

(** Conversion of an [Eigen::Index] to [uint32_t]. *)
Definition to_uint32 (z : Z) : Z := z mod 2 ^ 32.

(** [v.rows()] / [v.size()] of a dense vector. *)
Definition vrows (v : VecNd) : Z := Z.of_nat (length v).

(** Unary minus on a vector, [-v]. *)
Definition vopp (v : VecNd) : VecNd := map PrimFloat.opp v.

(** [s * VecNd::Ones(n)]. *)
Definition scaled_ones (s : float) (n : Z) : VecNd :=
  map (PrimFloat.mul s) (replicate (Z.to_nat n) 1%float).

(** ** Outcomes of a call

    A call returns, throws a [std::runtime_error] (after printing labelled
    numbers on [std::cout]), or leaves the domain of an Eigen operation
    (an [eigen_assert] precondition is violated). *)

Inductive outcome (A : Type) : Type :=
| Returns (a : A)
| Throws (cout : list (string * Z)) (what : string)
| Undefined.
Arguments Returns {A} a.
Arguments Throws {A} cout what.
Arguments Undefined {A}.

Definition bind_outcome {A B} (o : outcome A) (k : A -> outcome B) : outcome B :=
  match o with
  | Returns a => k a
  | Throws c w => Throws c w
  | Undefined => Undefined
  end.

Notation "x <- c1 ;;; c2" := (bind_outcome c1 (fun x => c2))
  (at level 100, c1 at next level, right associativity).

Definition of_option {A} (o : option A) : outcome A :=
  match o with Some a => Returns a | None => Undefined end.

(** ** Sparse matrices ([Eigen::SparseMatrix<double>], column major) *)

Record SparseMat : Type := mkSparse {
  rows : Z;
  cols : Z;
  stored : gmap (Z * Z) float
}.

(** A fresh [SparseMat(r, c)]: no stored coefficient. *)
Definition emptySparse (r c : Z) : SparseMat := mkSparse r c ∅.

(** [M.outerSize()]: the number of columns of a column-major matrix. *)
Definition outerSize (M : SparseMat) : Z := cols M.

(** Stored coefficients lie inside the matrix (Eigen's class invariant). *)
Definition wf_sparse (M : SparseMat) : bool :=
  (0 <=? rows M) && (0 <=? cols M) &&
  forallb (fun e => let '((r, c), _) := e in
             (0 <=? r) && (r <? rows M) && (0 <=? c) && (c <? cols M))
          (map_to_list (stored M)).

(** [SparseMatrix::insert(row, col) = v]: the coefficient must lie inside
    the matrix and must not be stored yet. *)
Definition sparse_insert (M : SparseMat) (r c : Z) (v : float) : option SparseMat :=
  if (0 <=? r) && (r <? rows M) && (0 <=? c) && (c <? cols M) then
    match stored M !! (r, c) with
    | None => Some (mkSparse (rows M) (cols M) (<[(r, c) := v]> (stored M)))
    | Some _ => None
    end
  else None.

(** [InnerIterator it(M, k)]: the stored coefficients of column [k], by
    increasing row, as triples (row, col, value). *)
Definition InnerIterator (M : SparseMat) (k : Z) : list (Z * Z * float) :=
  omap (fun r => (fun v => (r, k, v)) <$> stored M !! (r, k)) (seqZ 0 (rows M)).

(** All stored coefficients in the order of the two nested loops. *)
Definition nonzeros (M : SparseMat) : list (Z * Z * float) :=
  k ← seqZ 0 (outerSize M); InnerIterator M k.

(** A loop over [l] whose body may leave the domain of an operation. *)
Fixpoint foldlM {A B} (f : A -> B -> option A) (a : A) (l : list B) : option A :=
  match l with
  | [] => Some a
  | b :: l' => match f a b with Some a' => foldlM f a' l' | None => None end
  end.

(** [M.setIdentity()]: ones on the diagonal and nothing else stored; the
    sources call it on square matrices only. *)
Definition setIdentity (M : SparseMat) : SparseMat :=
  mkSparse (rows M) (cols M)
    (list_to_map (map (fun k => ((k, k), 1%float)) (seqZ 0 (Z.min (rows M) (cols M))))).

(** ** [setSparseBlock] (OsqpEigenOptimization.cpp, lines 119-137)

    The offsets [i] and [j] are [uint32_t] parameters: the arguments are
    converted on entry.  [rows() - i] and [it.row() + i] are computed on
    [Eigen::Index] values, without wrap-around.  The four numbers printed
    before the throw are kept with their labels. *)

(** The message of the [std::runtime_error]. *)
Definition block_overflow_what : string := "setSparseBlock: Can't fit block".

Definition setSparseBlock (output_matrix input_block : SparseMat) (i j : Z)
  : outcome SparseMat :=
  let i := to_uint32 i in
  let j := to_uint32 j in
  if (rows input_block >? rows output_matrix - i)
     || (cols input_block >? cols output_matrix - j)
  then
    Throws [ ("input_block.cols() = "%string, cols input_block);
             ("input_block.rows() = "%string, rows input_block);
             ("output_matrix.cols() - i = "%string, cols output_matrix - i);
             ("output_matrix.rows() - j = "%string, rows output_matrix - j) ]
           block_overflow_what
  else
    of_option
      (foldlM (fun out k =>
                 foldlM (fun out it =>
                           let '(r, c, v) := it in sparse_insert out (r + i) (c + j) v)
                        out (InnerIterator input_block k))
              output_matrix (seqZ 0 (outerSize input_block))).


(** [v.segment(start, n) = src]: Eigen requires the segment to lie inside
    the vector, and the assigned expression to have the segment's size. *)
Definition segment_assign (v : VecNd) (start n : Z) (src : VecNd) : option VecNd :=
  if (0 <=? start) && (0 <=? n) && (start + n <=? vrows v) && (vrows src =? n)
  then Some (take (Z.to_nat start) v ++ src ++ drop (Z.to_nat (start + n)) v)
  else None.

(** ** The external solver session ([OsqpEigen::Solver])

    The solver is a black box to this repository.  The model keeps what
    the adapter hands to it: the settings in the order they were set, the
    last value given to each data setter (the adapter ignores the boolean
    the setters return), the data copied by [initSolver] into the
    workspace, and the order of the life-cycle calls. *)
Module OsqpEigen.

(** Solver statuses; [status_code] is the [(int)] cast, with the values
    of OSQP's [constants.h]. *)
Inductive Status : Type :=
| Solved | SolvedInaccurate | PrimalInfeasibleInaccurate
| DualInfeasibleInaccurate | MaxIterReached | PrimalInfeasible
| DualInfeasible | Sigint | TimeLimitReached | NonCvx | Unsolved.

Definition status_code (s : Status) : Z :=
  match s with
  | Solved => 1 | SolvedInaccurate => 2 | PrimalInfeasibleInaccurate => 3
  | DualInfeasibleInaccurate => 4 | MaxIterReached => -2
  | PrimalInfeasible => -3 | DualInfeasible => -4 | Sigint => -5
  | TimeLimitReached => -6 | NonCvx => -7 | Unsolved => -10
  end.

Definition OSQP_PRIMAL_INFEASIBLE : Z := -3.

Inductive Setting : Type :=
| Verbosity (b : bool)
| Alpha (a : float)
| AbsoluteTolerance (t : float)
| RelativeTolerance (t : float)
| WarmStart (b : bool)
| MaxIteration (n : Z)
| TimeLimit (t : float)
| AdaptiveRho (b : bool)
| AdaptiveRhoInterval (n : Z).

Record Data : Type := mkData {
  numberOfVariables : option Z;
  numberOfConstraints : option Z;
  hessianMatrix : option SparseMat;
  gradient : option VecNd;
  linearConstraintsMatrix : option SparseMat;
  lowerBound : option VecNd;
  upperBound : option VecNd
}.

Inductive Event : Type := ClearSolver | InitSolver | SolveProblem.

Record Solver : Type := mkSolver {
  settings : list Setting;
  data : Data;
  workspace : option Data;
  history : list Event;
  solution : VecNd;
  status : Status
}.

Definition fresh : Solver :=
  mkSolver [] (mkData None None None None None None None) None [] [] Unsolved.

Definition configure (o : Setting) (s : Solver) : Solver :=
  mkSolver (settings s ++ [o]) (data s) (workspace s) (history s)
           (solution s) (status s).

Definition with_data (f : Data -> Data) (s : Solver) : Solver :=
  mkSolver (settings s) (f (data s)) (workspace s) (history s)
           (solution s) (status s).

Definition setNumberOfVariables (n : Z) : Solver -> Solver :=
  with_data (fun d => mkData (Some n) (numberOfConstraints d) (hessianMatrix d)
               (gradient d) (linearConstraintsMatrix d) (lowerBound d) (upperBound d)).

Definition setNumberOfConstraints (m : Z) : Solver -> Solver :=
  with_data (fun d => mkData (numberOfVariables d) (Some m) (hessianMatrix d)
               (gradient d) (linearConstraintsMatrix d) (lowerBound d) (upperBound d)).

Definition clearHessianMatrix : Solver -> Solver :=
  with_data (fun d => mkData (numberOfVariables d) (numberOfConstraints d) None
               (gradient d) (linearConstraintsMatrix d) (lowerBound d) (upperBound d)).

Definition setHessianMatrix (H : SparseMat) : Solver -> Solver :=
  with_data (fun d => mkData (numberOfVariables d) (numberOfConstraints d) (Some H)
               (gradient d) (linearConstraintsMatrix d) (lowerBound d) (upperBound d)).

Definition setGradient (q : VecNd) : Solver -> Solver :=
  with_data (fun d => mkData (numberOfVariables d) (numberOfConstraints d)
               (hessianMatrix d) (Some q) (linearConstraintsMatrix d)
               (lowerBound d) (upperBound d)).

Definition clearLinearConstraintsMatrix : Solver -> Solver :=
  with_data (fun d => mkData (numberOfVariables d) (numberOfConstraints d)
               (hessianMatrix d) (gradient d) None (lowerBound d) (upperBound d)).

Definition setLinearConstraintsMatrix (A : SparseMat) : Solver -> Solver :=
  with_data (fun d => mkData (numberOfVariables d) (numberOfConstraints d)
               (hessianMatrix d) (gradient d) (Some A) (lowerBound d) (upperBound d)).

Definition setBounds (l u : VecNd) : Solver -> Solver :=
  with_data (fun d => mkData (numberOfVariables d) (numberOfConstraints d)
               (hessianMatrix d) (gradient d) (linearConstraintsMatrix d)
               (Some l) (Some u)).

Definition clearSolver (s : Solver) : Solver :=
  mkSolver (settings s) (data s) None (history s ++ [ClearSolver])
           (solution s) (status s).

Definition initSolver (s : Solver) : Solver :=
  mkSolver (settings s) (data s) (Some (data s)) (history s ++ [InitSolver])
           (solution s) (status s).

(** The last value given to a setting, if it was set. *)
Definition warmStart (s : Solver) : option bool :=
  last (omap (fun o => match o with WarmStart b => Some b | _ => None end)
             (settings s)).

Section Run.
(** The solving algorithm: from the session (its settings, its
    workspace, the vector of the previous solve) to an exit flag, a
    primal vector and a status. *)
Variable osqp : Solver -> bool * VecNd * Status.

(** [solver.solveProblem()]: runs on the workspace when there is one
    and reports failure by its return value, never by an exception. *)
Definition solveProblem (s : Solver) : bool * Solver :=
  match workspace s with
  | Some _ =>
      let '(ok, x, st) := osqp s in
      (ok,
       mkSolver (settings s) (data s) (workspace s)
                (history s ++ [SolveProblem]) x st)
  | None => (false, s)
  end.
End Run.

Definition getSolution (s : Solver) : VecNd := solution s.
Definition getStatus (s : Solver) : Status := status s.

End OsqpEigen.

(** ** [SparseQpProblem] (QpProblem.hpp), as the adapter reads it *)

Record SparseQpProblem : Type := mkQp {
  A_qp : SparseMat;
  b_qp : VecNd;
  A_eq : SparseMat;
  b_eq : VecNd;
  A_ieq : SparseMat;
  b_ieq : VecNd;
  lower_bound : VecNd;
  upper_bound : VecNd
}.

(** ** The adapter, box+affine layout (OsqpEigenOptimization.cpp, lines 1-137)

    [inf] is the constant of the absent header OsqpEigenOptimization.hpp,
    taken as a parameter; [osqp] is the solving algorithm.  The members
    [n_] and [m_] hold the values of their initialisers. *)
Module BoxAffine.

Record OsqpEigenOpt : Type := mkOpt {
  alpha_ : float;
  n_ : Z;
  m_ : Z;
  linearConstraintsMatrix_ : SparseMat;
  b_qp_ : VecNd;
  lower_bound_ : VecNd;
  upper_bound_ : VecNd;
  solver_ : OsqpEigen.Solver
}.

Section Adapter.
Variable inf : float.
Variable osqp : OsqpEigen.Solver -> bool * VecNd * OsqpEigen.Status.

(** [initializeSolver] (lines 24-83). *)
Definition initializeSolver (this : OsqpEigenOpt) (qp_problem : SparseQpProblem)
           (time_limit : float) (verbosity : bool) : outcome OsqpEigenOpt :=
  let s := solver_ this in
  let s := OsqpEigen.configure (OsqpEigen.Verbosity verbosity) s in
  let s := OsqpEigen.configure (OsqpEigen.Alpha 1%float) s in
  let s := OsqpEigen.configure (OsqpEigen.AbsoluteTolerance 1e-6%float) s in
  let s := OsqpEigen.configure (OsqpEigen.RelativeTolerance 1e-6%float) s in
  let s := OsqpEigen.configure (OsqpEigen.WarmStart true) s in
  let s := OsqpEigen.configure (OsqpEigen.MaxIteration 10000) s in
  let s := OsqpEigen.configure (OsqpEigen.TimeLimit time_limit) s in
  let s := OsqpEigen.configure (OsqpEigen.AdaptiveRho true) s in
  let s := OsqpEigen.configure (OsqpEigen.AdaptiveRhoInterval 5) s in
  let s := OsqpEigen.setNumberOfVariables (n_ this) s in
  let s := OsqpEigen.setNumberOfConstraints (m_ this) s in
  let s := OsqpEigen.clearHessianMatrix s in
  let s := OsqpEigen.setHessianMatrix (A_qp qp_problem) s in
  let b_qp' := b_qp qp_problem in
  let s := OsqpEigen.setGradient b_qp' s in
  let s := OsqpEigen.clearLinearConstraintsMatrix s in
  let identMatrix_n :=
    setIdentity (emptySparse (vrows (upper_bound qp_problem))
                             (vrows (upper_bound qp_problem))) in
  lcm <- setSparseBlock (linearConstraintsMatrix_ this) identMatrix_n 0 0 ;;;
  lcm <- setSparseBlock lcm (A_eq qp_problem) (rows identMatrix_n) 0 ;;;
  lcm <- setSparseBlock lcm (A_ieq qp_problem)
                        (rows identMatrix_n + rows (A_eq qp_problem)) 0 ;;;
  let s := OsqpEigen.setLinearConstraintsMatrix lcm s in
  let lower_bound_x := lower_bound qp_problem in
  let upper_bound_x := upper_bound qp_problem in
  let lower_bound_eq := vopp (b_eq qp_problem) in
  let upper_bound_eq := vopp (b_eq qp_problem) in
  let lower_bound_ieq :=
    scaled_ones (PrimFloat.opp inf) (vrows (b_ieq qp_problem)) in
  let upper_bound_ieq := vopp (b_ieq qp_problem) in
  let lower_bound' := lower_bound_x ++ lower_bound_eq ++ lower_bound_ieq in
  let upper_bound' := upper_bound_x ++ upper_bound_eq ++ upper_bound_ieq in
  let s := OsqpEigen.setBounds lower_bound' upper_bound' s in
  let s := OsqpEigen.clearSolver s in
  let s := OsqpEigen.initSolver s in
  Returns (mkOpt (alpha_ this) (n_ this) (m_ this) lcm b_qp'
                 lower_bound' upper_bound' s).

(** The constructor [OsqpEigenOpt(qp_problem, time_limit, verbosity)]
    (lines 14-22): [linearConstraintsMatrix_] starts as a fresh [m_] x [n_]
    matrix. *)
Definition new_OsqpEigenOpt (qp_problem : SparseQpProblem)
           (time_limit : float) (verbosity : bool) : outcome OsqpEigenOpt :=
  let n := rows (A_qp qp_problem) in
  let m := vrows (upper_bound qp_problem) + rows (A_eq qp_problem)
           + rows (A_ieq qp_problem) in
  initializeSolver (mkOpt 1%float n m (emptySparse m n) [] [] [] OsqpEigen.fresh)
                   qp_problem time_limit verbosity.

(** [setGradientAndInit] (lines 85-92). *)
Definition setGradientAndInit (this : OsqpEigenOpt) (b_qp : VecNd) : OsqpEigenOpt :=
  let s := OsqpEigen.setGradient b_qp (solver_ this) in
  let s := OsqpEigen.setLinearConstraintsMatrix (linearConstraintsMatrix_ this) s in
  let s := OsqpEigen.clearSolver s in
  let s := OsqpEigen.initSolver s in
  mkOpt (alpha_ this) (n_ this) (m_ this) (linearConstraintsMatrix_ this)
        b_qp (lower_bound_ this) (upper_bound_ this) s.

(** [setGradientIeqConstraintAndInit] (lines 94-106): [bound_dim] is a
    [uint32_t], the start of the segment an [Eigen::Index]. *)
Definition setGradientIeqConstraintAndInit (this : OsqpEigenOpt)
           (b_qp b_ieq : VecNd) : outcome OsqpEigenOpt :=
  let s := OsqpEigen.setGradient b_qp (solver_ this) in
  let bound_dim := to_uint32 (vrows (lower_bound_ this)) in
  upper_bound' <- of_option (segment_assign (upper_bound_ this)
                               (bound_dim - vrows b_ieq) (vrows b_ieq)
                               (vopp b_ieq)) ;;;
  let s := OsqpEigen.setBounds (lower_bound_ this) upper_bound' s in
  let s := OsqpEigen.setLinearConstraintsMatrix (linearConstraintsMatrix_ this) s in
  let s := OsqpEigen.clearSolver s in
  let s := OsqpEigen.initSolver s in
  Returns (mkOpt (alpha_ this) (n_ this) (m_ this) (linearConstraintsMatrix_ this)
                 b_qp (lower_bound_ this) upper_bound' s).

(** [solveProblem] (lines 108-112): the value of [solver_.solveProblem()]
    is dropped. *)
Definition solveProblem (this : OsqpEigenOpt) : VecNd * OsqpEigenOpt :=
  let '(_, s) := OsqpEigen.solveProblem osqp (solver_ this) in
  (OsqpEigen.getSolution s,
   mkOpt (alpha_ this) (n_ this) (m_ this) (linearConstraintsMatrix_ this)
         (b_qp_ this) (lower_bound_ this) (upper_bound_ this) s).

(** [checkFeasibility] (lines 114-117). *)
Definition checkFeasibility (this : OsqpEigenOpt) : bool :=
  negb (OsqpEigen.status_code (OsqpEigen.getStatus (solver_ this))
        =? OsqpEigen.OSQP_PRIMAL_INFEASIBLE).

End Adapter.
End BoxAffine.

(** ** The adapter, inequality-only layout (the second
    OsqpEigenOptimization.cpp, lines 146-199 of the listing) *)
Module IneqOnly.

Record OsqpEigenOpt : Type := mkOpt {
  alpha_ : float;
  qp_problem_ : SparseQpProblem;
  n_ : Z;
  m_ : Z;
  solver_ : OsqpEigen.Solver
}.

Section Adapter.
Variable inf : float.
Variable osqp : OsqpEigen.Solver -> bool * VecNd * OsqpEigen.Status.

(** [initializeSolver] (lines 155-188): the bounds are local vectors. *)
Definition initializeSolver (this : OsqpEigenOpt) (verbosity : bool) : OsqpEigenOpt :=
  let s := solver_ this in
  let s := OsqpEigen.configure (OsqpEigen.Verbosity verbosity) s in
  let s := OsqpEigen.configure (OsqpEigen.Alpha (alpha_ this)) s in
  let s := OsqpEigen.configure (OsqpEigen.AdaptiveRho false) s in
  let s := OsqpEigen.setNumberOfVariables (n_ this) s in
  let s := OsqpEigen.setNumberOfConstraints (m_ this) s in
  let s := OsqpEigen.clearHessianMatrix s in
  let s := OsqpEigen.setHessianMatrix (A_qp (qp_problem_ this)) s in
  let s := OsqpEigen.setGradient (b_qp (qp_problem_ this)) s in
  let s := OsqpEigen.clearLinearConstraintsMatrix s in
  let s := OsqpEigen.setLinearConstraintsMatrix (A_ieq (qp_problem_ this)) s in
  let lower_bound_eq := vopp (b_eq (qp_problem_ this)) in
  let upper_bound_eq := vopp (b_eq (qp_problem_ this)) in
  let lower_bound_ieq :=
    scaled_ones (PrimFloat.opp inf) (vrows (b_ieq (qp_problem_ this))) in
  let upper_bound_ieq := vopp (b_ieq (qp_problem_ this)) in
  let lower_bound' := lower_bound_eq ++ lower_bound_ieq in
  let upper_bound' := upper_bound_eq ++ upper_bound_ieq in
  let s := OsqpEigen.setBounds lower_bound' upper_bound' s in
  let s := OsqpEigen.clearSolver s in
  let s := OsqpEigen.initSolver s in
  mkOpt (alpha_ this) (qp_problem_ this) (n_ this) (m_ this) s.

(** The constructor [OsqpEigenOpt(qp_problem, verbosity)] (lines 146-153). *)
Definition new_OsqpEigenOpt (qp_problem : SparseQpProblem) (verbosity : bool)
  : OsqpEigenOpt :=
  initializeSolver
    (mkOpt 1%float qp_problem (rows (A_qp qp_problem))
           (rows (A_eq qp_problem) + rows (A_ieq qp_problem)) OsqpEigen.fresh)
    verbosity.

Definition solveProblem (this : OsqpEigenOpt) : VecNd * OsqpEigenOpt :=
  let '(exit_flag, s) := OsqpEigen.solveProblem osqp (solver_ this) in
  (OsqpEigen.getSolution s,
   mkOpt (alpha_ this) (qp_problem_ this) (n_ this) (m_ this) s).

Definition checkFeasibility (this : OsqpEigenOpt) : bool :=
  negb (OsqpEigen.status_code (OsqpEigen.getStatus (solver_ this))
        =? OsqpEigen.OSQP_PRIMAL_INFEASIBLE).

End Adapter.
End IneqOnly.

(** ** [LinearSystem] (LinMpcEigen.hpp, lines 75-87)

    The header declares the structure; its constructor and
    [checkMatrixDimensions] are defined in LinMpcEigen.cpp.  The matrices
    are used through their shape only, so the model is generic in the
    matrix type. *)

Class Shaped (M : Type) : Type := {
  shape_rows : M -> Z;
  shape_cols : M -> Z
}.

#[export] Instance SparseMat_shaped : Shaped SparseMat :=
  {| shape_rows := rows; shape_cols := cols |}.

Inductive result (E T : Type) : Type :=
| Ok (t : T)
| Error (e : E).
Arguments Ok {E T} t.
Arguments Error {E T} e.

Module LinearSystemModel.

(** The error of an ill defined system: the shapes (rows, columns) of
    [A], [B], [C] and [D]. *)
Inductive DimensionMismatch : Type :=
| mismatch (shapes : list (Z * Z)).

Record LinearSystem (M : Type) : Type := mkLinearSystem {
  A : M;
  B : M;
  C : M;
  D : M;
  n_x : Z;
  n_u : Z;
  n_y : Z
}.
Arguments mkLinearSystem {M}.
Arguments A {M}.
Arguments B {M}.
Arguments C {M}.
Arguments D {M}.
Arguments n_x {M}.
Arguments n_u {M}.
Arguments n_y {M}.

Section WithMatrices.
Context {M : Type} `{Shaped M}.

Definition shape (X : M) : Z * Z := (shape_rows X, shape_cols X).

(** Modelled from the spec: [checkMatrixDimensions] is defined in
    LinMpcEigen.cpp, which is absent.  The spec's invariant:
    B.rows == A.rows == A.cols, C.cols == A.cols, D.rows == C.rows,
    D.cols == B.cols; a violation is a DimensionMismatch error that
    enumerates the shapes. *)
Definition checkMatrixDimensions (s : LinearSystem M) : result DimensionMismatch unit :=
  if (shape_rows (B s) =? shape_rows (A s))
     && (shape_rows (A s) =? shape_cols (A s))
     && (shape_cols (C s) =? shape_cols (A s))
     && (shape_rows (D s) =? shape_rows (C s))
     && (shape_cols (D s) =? shape_cols (B s))
  then Ok tt
  else Error (mismatch [shape (A s); shape (B s); shape (C s); shape (D s)]).

(** Modelled from the spec: the constructor [LinearSystem(A, B, C, D)]
    is defined in LinMpcEigen.cpp, which is absent.  It stores the four
    matrices, validates them once and fails fast on a mismatch; [n_x],
    [n_u] and [n_y] are the [uint32_t] dimensions of the state, input
    and output vectors. *)
Definition new_LinearSystem (A B C D : M) : result DimensionMismatch (LinearSystem M) :=
  let s := mkLinearSystem A B C D (to_uint32 (shape_rows A))
                          (to_uint32 (shape_cols B)) (to_uint32 (shape_rows C)) in
  match checkMatrixDimensions s with
  | Ok _ => Ok s
  | Error e => Error e
  end.
End WithMatrices.
End LinearSystemModel.

(** ** The MPC rollout in exact arithmetic (LinMpcEigen.hpp, lines 89-195)

    [MPC::setupMpcDynamics], [matrixPow], [MPC::calculateX] and
    [MPC::calculateY] are declared in the header and defined in
    LinMpcEigen.cpp.  The rollout identities are identities of exact
    arithmetic: the scalars here form a commutative ring, which the
    doubles of the program do up to rounding only. *)

Class ExactScalar : Type := {
  K : Type;
  k0 : K;
  k1 : K;
  kadd : K -> K -> K;
  kmul : K -> K -> K;
  ksub : K -> K -> K;
  kopp : K -> K;
  K_ring : ring_theory k0 k1 kadd kmul ksub kopp eq
}.

#[export] Instance Z_exact : ExactScalar :=
  {| K := Z; k0 := 0; k1 := 1; kadd := Z.add; kmul := Z.mul; ksub := Z.sub;
     kopp := Z.opp; K_ring := Zth |}.

Module Rollout.
Local Open Scope nat_scope.

Section WithScalars.
Context {scalars : ExactScalar}.

(** A matrix by its shape and its coefficients. *)
Record Mat : Type := mkMat {
  nrows : nat;
  ncols : nat;
  coef : nat -> nat -> K
}.

#[global] Instance Mat_shaped : Shaped Mat :=
  {| shape_rows := fun X => Z.of_nat (nrows X);
     shape_cols := fun X => Z.of_nat (ncols X) |}.

(** [f 0 + f 1 + ... + f (n - 1)]. *)
Fixpoint bigsum (n : nat) (f : nat -> K) : K :=
  match n with
  | 0 => k0
  | S n' => kadd (bigsum n' f) (f n')
  end.

Definition identity (n : nat) : Mat :=
  mkMat n n (fun i j => if i =? j then k1 else k0).

(** The product [X * Y]. *)
Definition mmul (X Y : Mat) : Mat :=
  mkMat (nrows X) (ncols Y)
        (fun i j => bigsum (ncols X) (fun l => kmul (coef X i l) (coef Y l j))).

(** Modelled from the spec: [matrixPow] is defined in LinMpcEigen.cpp,
    which is absent.  The spec's matrix-power primitive, by repeated
    multiplication, starting from the identity. *)
Fixpoint matrixPow (input_mat : Mat) (power : nat) : Mat :=
  match power with
  | 0 => identity (nrows input_mat)
  | S p => mmul (matrixPow input_mat p) input_mat
  end.

(** The coefficients of the product [X * v] of a matrix and a vector of
    [ncols X] entries. *)
Definition mulv (X : Mat) (v : list K) : list K :=
  map (fun i => bigsum (ncols X) (fun j => kmul (coef X i j) (nth j v k0)))
      (seq 0 (nrows X)).

(** The coefficients of the sum [u + v] of two vectors of equal size. *)
Definition vadd (u v : list K) : list K := zip_with kadd u v.

(** The coefficients of [v.segment(start, n)]. *)
Definition segment (v : list K) (start n : nat) : list K :=
  take n (drop start v).

(** The operations with Eigen's size requirements: [X * v] needs as many
    entries as [X] has columns, [u + v] equal sizes, and a segment must
    lie inside its vector. *)
Definition times (X : Mat) (v : list K) : option (list K) :=
  if length v =? ncols X then Some (mulv X v) else None.

Definition plus (u v : list K) : option (list K) :=
  if length u =? length v then Some (vadd u v) else None.

Definition segment_of (v : list K) (start n : nat) : option (list K) :=
  if start + n <=? length v then Some (segment v start n) else None.

Record MPC : Type := mkMPC {
  linear_system_ : LinearSystemModel.LinearSystem Mat;
  N_ : nat;
  x0_ : list K;
  A_mpc_ : Mat;
  B_mpc_ : Mat;
  C_mpc_ : Mat
}.

(** Modelled from the spec: [MPC::setupMpcDynamics] is defined in
    LinMpcEigen.cpp, which is absent.  The spec's rollout matrices:
    A_mpc (N n_x by N n_u) is block lower triangular, its row-block [i],
    column-block [j] ([j <= i]) is A^(i-j) B; the row-block [i] of B_mpc
    (N n_x by n_x) is A^(i+1); C_mpc (N n_y by N n_x) is block diagonal
    with C repeated N times. *)
Definition setupMpcDynamics (sys : LinearSystemModel.LinearSystem Mat)
           (N : nat) : Mat * Mat * Mat :=
  let A := LinearSystemModel.A sys in
  let B := LinearSystemModel.B sys in
  let C := LinearSystemModel.C sys in
  let n_x := nrows A in
  let n_u := ncols B in
  let n_y := nrows C in
  (mkMat (N * n_x) (N * n_u)
         (fun r c =>
            if c / n_u <=? r / n_x
            then coef (mmul (matrixPow A (r / n_x - c / n_u)) B)
                      (r mod n_x) (c mod n_u)
            else k0),
   mkMat (N * n_x) n_x
         (fun r c => coef (matrixPow A (r / n_x + 1)) (r mod n_x) c),
   mkMat (N * n_y) (N * n_x)
         (fun r c =>
            if r / n_y =? c / n_x
            then coef C (r mod n_y) (c mod n_x)
            else k0)).

(** The controller for a system, a horizon and an initial state. *)
Definition new_MPC (sys : LinearSystemModel.LinearSystem Mat) (horizon : nat)
           (x0 : list K) : MPC :=
  let '(A_mpc, B_mpc, C_mpc) := setupMpcDynamics sys horizon in
  mkMPC sys horizon x0 A_mpc B_mpc C_mpc.

(** Modelled from the spec: [MPC::calculateX] is defined in
    LinMpcEigen.cpp, which is absent.  The spec's X = A_mpc U + B_mpc x0. *)
Definition calculateX (mpc : MPC) (U_in : list K) : option (list K) :=
  a ← times (A_mpc_ mpc) U_in;
  b ← times (B_mpc_ mpc) (x0_ mpc);
  plus a b.

(** Modelled from the spec: [MPC::calculateY] is defined in
    LinMpcEigen.cpp, which is absent.  The spec's Y = C_mpc X. *)
Definition calculateY (mpc : MPC) (U_in : list K) : option (list K) :=
  X ← calculateX mpc U_in;
  times (C_mpc_ mpc) X.

(** One step of the system: x(k+1) = A x(k) + B u(k). *)
Definition step (sys : LinearSystemModel.LinearSystem Mat) (x u : list K)
  : option (list K) :=
  a ← times (LinearSystemModel.A sys) x;
  b ← times (LinearSystemModel.B sys) u;
  plus a b.

(** The step by step simulation from [x0], with u(k) the [k]-th segment
    of [U]: [state k] is x(k). *)
Fixpoint state (sys : LinearSystemModel.LinearSystem Mat) (x0 U : list K)
         (k : nat) : option (list K) :=
  match k with
  | 0 => Some x0
  | S k' =>
      let n_u := ncols (LinearSystemModel.B sys) in
      x ← state sys x0 U k';
      u ← segment_of U (k' * n_u) n_u;
      step sys x u
  end.

(** The states x(1), ..., x(N), stacked. *)
Definition simulateX (sys : LinearSystemModel.LinearSystem Mat) (N : nat)
           (x0 U : list K) : option (list K) :=
  @concat K <$> mapM (fun k => state sys x0 U (S k)) (seq 0 N).

(** The outputs y(k) = C x(k) for k = 1, ..., N, stacked. *)
Definition simulateY (sys : LinearSystemModel.LinearSystem Mat) (N : nat)
           (x0 U : list K) : option (list K) :=
  @concat K <$> mapM (fun k => x ← state sys x0 U (S k);
                               times (LinearSystemModel.C sys) x)
                     (seq 0 N).

(** The same computations on the coefficients alone, for operands whose
    sizes agree. *)
Definition calculateX_values (mpc : MPC) (U_in : list K) : list K :=
  vadd (mulv (A_mpc_ mpc) U_in) (mulv (B_mpc_ mpc) (x0_ mpc)).

Definition calculateY_values (mpc : MPC) (U_in : list K) : list K :=
  mulv (C_mpc_ mpc) (calculateX_values mpc U_in).

Fixpoint state_values (sys : LinearSystemModel.LinearSystem Mat) (x0 U : list K)
         (k : nat) : list K :=
  match k with
  | 0 => x0
  | S k' =>
      let n_u := ncols (LinearSystemModel.B sys) in
      vadd (mulv (LinearSystemModel.A sys) (state_values sys x0 U k'))
           (mulv (LinearSystemModel.B sys) (segment U (k' * n_u) n_u))
  end.

Definition simulateX_values (sys : LinearSystemModel.LinearSystem Mat) (N : nat)
           (x0 U : list K) : list K :=
  concat (map (fun k => state_values sys x0 U (S k)) (seq 0 N)).

Definition simulateY_values (sys : LinearSystemModel.LinearSystem Mat) (N : nat)
           (x0 U : list K) : list K :=
  concat (map (fun k => mulv (LinearSystemModel.C sys) (state_values sys x0 U (S k)))
              (seq 0 N)).
End WithScalars.
End Rollout.

(** ** The example driver (src/unnamed/part_000)

    [generate_ramp_vec] (lines 103-114) and [eigen2stdVec] (lines 116-122).
    A dense vector is read and written through [operator()], which needs
    the index inside the vector; a freshly sized vector holds whatever the
    memory held, given here by [garbage]. *)

(** [v(i)] as a value. *)
Definition vec_get (v : VecNd) (i : Z) : option float :=
  if (0 <=? i) && (i <? vrows v) then v !! Z.to_nat i else None.

(** [v(i) = x]. *)
Definition vec_set (v : VecNd) (i : Z) (x : float) : option VecNd :=
  if (0 <=? i) && (i <? vrows v) then Some (<[Z.to_nat i := x]> v) else None.

(** [Eigen::VectorXd v(n)]: [n] entries, not initialised. *)
Definition new_VectorXd (garbage : nat -> float) (n : Z) : VecNd :=
  map garbage (seq 0 (Z.to_nat n)).

(** [v.segment(start, n)] as a value: the segment must lie inside [v]. *)
Definition vsegment (v : VecNd) (start n : Z) : option VecNd :=
  if (0 <=? start) && (0 <=? n) && (start + n <=? vrows v)
  then Some (take (Z.to_nat n) (drop (Z.to_nat start) v))
  else None.

(** The body of the loop of [generate_ramp_vec] at index [i]: the test
    [!((i / ramp_half_period) % 2)] is computed on [uint32_t] values, and
    a zero [ramp_half_period] is a division by zero. *)
Definition ramp_step (ramp_half_period : Z) (ramp_rate : float)
           (lawnmower_vec : VecNd) (i : Z) : option VecNd :=
  if ramp_half_period =? 0 then None
  else
    prev ← vec_get lawnmower_vec (i - 1);
    vec_set lawnmower_vec i
            (if (i / ramp_half_period) mod 2 =? 0 then prev
             else PrimFloat.add prev ramp_rate).

(** [generate_ramp_vec(len, ramp_half_period, ramp_rate)]: [len] and
    [ramp_half_period] are [uint32_t] parameters. *)
Definition generate_ramp_vec (garbage : nat -> float)
           (len ramp_half_period : Z) (ramp_rate : float) : outcome VecNd :=
  let len := to_uint32 len in
  let ramp_half_period := to_uint32 ramp_half_period in
  let lawnmower_vec := new_VectorXd garbage len in
  of_option
    (lawnmower_vec ← vec_set lawnmower_vec 0 0%float;
     foldlM (ramp_step ramp_half_period ramp_rate) lawnmower_vec
            (seqZ 1 (len - 1))).

(** The loop of [eigen2stdVec]: [i] is a [uint32_t] compared with the
    [Eigen::Index] [eigen_vec.rows()]; [fuel] bounds the number of tests
    of the loop condition. *)
Fixpoint eigen2stdVec_loop (fuel : nat) (eigen_vec : VecNd) (i : Z)
         (ret_vec : list float) : option (list float) :=
  match fuel with
  | O => None
  | S fuel' =>
      if i <? vrows eigen_vec then
        x ← vec_get eigen_vec i;
        eigen2stdVec_loop fuel' eigen_vec (to_uint32 (i + 1)) (ret_vec ++ [x])
      else Some ret_vec
  end.

(** [eigen2stdVec(eigen_vec)]. *)
Definition eigen2stdVec (fuel : nat) (eigen_vec : VecNd) : option (list float) :=
  eigen2stdVec_loop fuel eigen_vec 0 [].

(** A double integrator over the integers: x = (position, velocity). *)
Definition A_int : @Rollout.Mat Z_exact :=
  Rollout.mkMat 2 2 (fun i j => match i, j with
                                | 0%nat, _ => 1
                                | 1%nat, 1%nat => 1
                                | _, _ => 0
                                end).
Definition B_int : @Rollout.Mat Z_exact :=
  Rollout.mkMat 2 1 (fun i _ => match i with 1%nat => 1 | _ => 0 end).
Definition C_int : @Rollout.Mat Z_exact :=
  Rollout.mkMat 1 2 (fun _ j => match j with 0%nat => 1 | _ => 0 end).
Definition D_int : @Rollout.Mat Z_exact :=
  Rollout.mkMat 1 1 (fun _ _ => 0).

Definition system_int : LinearSystemModel.LinearSystem (@Rollout.Mat Z_exact) :=
  LinearSystemModel.mkLinearSystem A_int B_int C_int D_int 2 1 1.


(** ** Notions used to state the properties *)

(** The position [p] lies inside the matrix. *)
Definition in_range (M : SparseMat) (p : Z * Z) : Prop :=
  0 <= p.1 < rows M /\ 0 <= p.2 < cols M.

(** The target position of a block coefficient. *)
Definition shift (i j : Z) (e : Z * Z * float) : (Z * Z) * float :=
  ((e.1.1 + i, e.1.2 + j), e.2).

(** Inserting a list of (position, value) pairs one after the other. *)
Definition insert_all (out : SparseMat) (kvs : list ((Z * Z) * float)) : option SparseMat :=
  foldlM (fun out kv => sparse_insert out kv.1.1 kv.1.2 kv.2) out kvs.

(** The block fits in what is left of the target below and right of the
    offset: the negation of the guard of [setSparseBlock]. *)
Definition fits (out blk : SparseMat) (i j : Z) : Prop :=
  rows blk <= rows out - i /\ cols blk <= cols out - j.

(** The stored coefficient of the block that lands on position [p] of the
    target, if there is one. *)
Definition block_at (blk : SparseMat) (i j : Z) (p : Z * Z) : option float :=
  if decide (0 <= p.1 - i < rows blk /\ 0 <= p.2 - j < cols blk)
  then stored blk !! (p.1 - i, p.2 - j) else None.

(** The target with the block's coefficients added. *)
Definition with_block (out blk : SparseMat) (i j : Z) : SparseMat :=
  mkSparse (rows out) (cols out)
           (list_to_map (shift i j <$> nonzeros blk) ∪ stored out).

(** A stored coefficient of the target lies where a coefficient of the
    block is to be written. *)
Definition overlaps (out blk : SparseMat) (i j : Z) : Prop :=
  exists r c v, (r, c, v) ∈ nonzeros blk /\ is_Some (stored out !! (r + i, c + j)).

(** Concrete matrices used to run the inserter. *)
Definition target_2x2 : SparseMat := mkSparse 2 2 {[ (0, 0) := 5%float ]}.

Definition block_1x2 : SparseMat := mkSparse 1 2 {[ (0, 1) := 7%float ]}.

Definition block_1x1 : SparseMat := mkSparse 1 1 {[ (0, 0) := 7%float ]}.

Definition block_4x1 : SparseMat := emptySparse 4 1.

Definition target_3x5 : SparseMat := emptySparse 3 5.

(** Dimensions of a [SparseQpProblem] that agree with each other: every
    stored coefficient lies inside its matrix, [A_qp] is square of the size
    [n] of the bound and gradient vectors, [A_eq] and [A_ieq] have [n]
    columns and as many rows as [b_eq] and [b_ieq] have entries, and the
    number of stacked rows is a [uint32_t] value. *)
Definition consistent (qp : SparseQpProblem) : bool :=
  let n := rows (A_qp qp) in
  wf_sparse (A_qp qp) && wf_sparse (A_eq qp) && wf_sparse (A_ieq qp)
  && (cols (A_qp qp) =? n) && (vrows (b_qp qp) =? n)
  && (vrows (lower_bound qp) =? n) && (vrows (upper_bound qp) =? n)
  && (cols (A_eq qp) =? n) && (vrows (b_eq qp) =? rows (A_eq qp))
  && (cols (A_ieq qp) =? n) && (vrows (b_ieq qp) =? rows (A_ieq qp))
  && (n + rows (A_eq qp) + rows (A_ieq qp) <? 2 ^ 32).

(** The coefficient stored at [(r, c)] of the stack [I; A_eq; A_ieq]. *)
Definition stacked_constraints (qp : SparseQpProblem) (r c : Z) : option float :=
  let n := vrows (upper_bound qp) in
  if decide (r < n) then
    if decide (0 <= r /\ c = r) then Some 1%float else None
  else if decide (r < n + rows (A_eq qp)) then stored (A_eq qp) !! (r - n, c)
  else stored (A_ieq qp) !! (r - n - rows (A_eq qp), c).

(** The matrix the three calls of [setSparseBlock] build in a fresh
    [m] x [n] matrix. *)
Definition stacked_matrix (qp : SparseQpProblem) : SparseMat :=
  let k := vrows (upper_bound qp) in
  let m := k + rows (A_eq qp) + rows (A_ieq qp) in
  let identMatrix_n := setIdentity (emptySparse k k) in
  with_block
    (with_block
       (with_block (emptySparse m (rows (A_qp qp))) identMatrix_n 0 0)
       (A_eq qp) k 0)
    (A_ieq qp) (k + rows (A_eq qp)) 0.

(** A problem with one variable, one equality row and one inequality row. *)
Definition qp_one_eq_one_ieq : SparseQpProblem :=
  mkQp (mkSparse 1 1 {[ (0, 0) := 2%float ]}) [0%float]
       (mkSparse 1 1 {[ (0, 0) := 1%float ]}) [1%float]
       (mkSparse 1 1 {[ (0, 0) := 1%float ]}) [3%float]
       [(-5)%float] [5%float].

(** A solving algorithm that reports the problem solved at the empty vector. *)
Definition osqp_trivial (_ : OsqpEigen.Solver)
  : bool * VecNd * OsqpEigen.Status := (true, [], OsqpEigen.Solved).

(** The adapter built from [qp_one_eq_one_ieq]. *)
Definition session_one : BoxAffine.OsqpEigenOpt :=
  match BoxAffine.new_OsqpEigenOpt infinity qp_one_eq_one_ieq 0%float false with
  | Returns this => this
  | _ => BoxAffine.mkOpt 0%float 0 0 (emptySparse 0 0) [] [] [] OsqpEigen.fresh
  end.

(** ** Sessions of the box+affine adapter *)

Section SessionNotions.
Variable inf : float.
Variable osqp : OsqpEigen.Solver -> bool * VecNd * OsqpEigen.Status.

(** The states an adapter built from [qp] goes through: the constructor,
    then any number of updates and solves. *)
Inductive session (qp : SparseQpProblem) : BoxAffine.OsqpEigenOpt -> Prop :=
| session_new time_limit verbosity this :
    BoxAffine.new_OsqpEigenOpt inf qp time_limit verbosity = Returns this ->
    session qp this
| session_gradient this b_qp :
    session qp this ->
    session qp (BoxAffine.setGradientAndInit this b_qp)
| session_gradient_ieq this b_qp b_ieq this' :
    session qp this ->
    BoxAffine.setGradientIeqConstraintAndInit this b_qp b_ieq = Returns this' ->
    session qp this'
| session_solve this :
    session qp this ->
    session qp (BoxAffine.solveProblem osqp this).2.

(** What every session keeps true. *)
Record session_inv (qp : SparseQpProblem) (this : BoxAffine.OsqpEigenOpt) : Prop := {
  inv_lcm : BoxAffine.linearConstraintsMatrix_ this = stacked_matrix qp;
  inv_lower :
    BoxAffine.lower_bound_ this
    = lower_bound qp ++ vopp (b_eq qp)
      ++ replicate (length (b_ieq qp)) (PrimFloat.mul (PrimFloat.opp inf) 1%float);
  inv_upper_len :
    length (BoxAffine.upper_bound_ this)
    = (length (upper_bound qp) + length (b_eq qp) + length (b_ieq qp))%nat;
  inv_hessian :
    OsqpEigen.hessianMatrix (OsqpEigen.data (BoxAffine.solver_ this))
    = Some (A_qp qp);
  inv_gradient :
    OsqpEigen.gradient (OsqpEigen.data (BoxAffine.solver_ this))
    = Some (BoxAffine.b_qp_ this);
  inv_data_lcm :
    OsqpEigen.linearConstraintsMatrix (OsqpEigen.data (BoxAffine.solver_ this))
    = Some (BoxAffine.linearConstraintsMatrix_ this);
  inv_data_lower :
    OsqpEigen.lowerBound (OsqpEigen.data (BoxAffine.solver_ this))
    = Some (BoxAffine.lower_bound_ this);
  inv_data_upper :
    OsqpEigen.upperBound (OsqpEigen.data (BoxAffine.solver_ this))
    = Some (BoxAffine.upper_bound_ this);
  inv_warm : OsqpEigen.warmStart (BoxAffine.solver_ this) = Some true;
  inv_workspace :
    OsqpEigen.workspace (BoxAffine.solver_ this)
    = Some (OsqpEigen.data (BoxAffine.solver_ this))
}.
End SessionNotions.

(** No block of the problem is wider than the constraint matrix: the
    identity has as many columns as there are box bounds, and the matrix
    has [A_qp.rows()] columns. *)
Definition blocks_fit (qp : SparseQpProblem) : Prop :=
  vrows (upper_bound qp) <= rows (A_qp qp) /\
  cols (A_eq qp) <= rows (A_qp qp) /\
  cols (A_ieq qp) <= rows (A_qp qp).

(** The staircase [generate_ramp_vec] computes, entry by entry: zero at
    index 0, then every entry is the one before it when the index lies in
    an even half period and the one before it plus the rate when it lies
    in an odd one. *)
Fixpoint ramp_at (ramp_half_period : Z) (ramp_rate : float) (i : nat) : float :=
  match i with
  | O => 0%float
  | S j =>
      let prev := ramp_at ramp_half_period ramp_rate j in
      if (Z.of_nat i / ramp_half_period) mod 2 =? 0 then prev
      else PrimFloat.add prev ramp_rate
  end.

Definition ramp (ramp_half_period : Z) (ramp_rate : float) (n : Z) : VecNd :=
  map (ramp_at ramp_half_period ramp_rate) (seq 0 (Z.to_nat n)).

(** * Properties *)

(** ** Facts about the sparse block inserter *)

Lemma to_uint32_small z : 0 <= z < 2 ^ 32 -> to_uint32 z = z.
Proof. intros H. unfold to_uint32. apply Z.mod_small. exact H. Qed.

Lemma foldlM_app {A B} (f : A -> B -> option A) a l1 l2 :
  foldlM f a (l1 ++ l2) = foldlM f a l1 ≫= fun a' => foldlM f a' l2.
Proof.
  revert a. induction l1 as [|b l1 IH]; intros a; simpl; [done|].
  destruct (f a b); simpl; auto.
Qed.

Lemma foldlM_bind {A B C} (f : A -> C -> option A) (F : B -> list C) a ks :
  foldlM (fun a k => foldlM f a (F k)) a ks = foldlM f a (k ← ks; F k).
Proof.
  revert a. induction ks as [|k ks IH]; intros a; simpl; [done|].
  rewrite foldlM_app. destruct (foldlM f a (F k)); simpl; auto.
Qed.

Lemma foldlM_fmap {A B C} (f : A -> C -> option A) (g : B -> C) a l :
  foldlM (fun a b => f a (g b)) a l = foldlM f a (g <$> l).
Proof.
  revert a. induction l as [|b l IH]; intros a; simpl; [done|].
  destruct (f a (g b)); auto.
Qed.

Lemma foldlM_ext {A B} (f g : A -> B -> option A) a l :
  (forall a b, f a b = g a b) -> foldlM f a l = foldlM g a l.
Proof.
  intros E. revert a. induction l as [|b l IH]; intros a; simpl; [done|].
  rewrite E. destruct (g a b); auto.
Qed.

Lemma setSparseBlock_loop out blk i j :
  foldlM (fun out k =>
            foldlM (fun out it =>
                      let '(r, c, v) := it in sparse_insert out (r + i) (c + j) v)
                   out (InnerIterator blk k))
         out (seqZ 0 (outerSize blk))
  = insert_all out (shift i j <$> nonzeros blk).
Proof.
  unfold insert_all, nonzeros. rewrite <- foldlM_fmap, <- foldlM_bind.
  apply foldlM_ext. intros a k. apply foldlM_ext. intros a' [[r c] v]. reflexivity.
Qed.

Lemma sparse_insert_Some M r c v M' :
  sparse_insert M r c v = Some M' <->
  in_range M (r, c) /\ stored M !! (r, c) = None /\
  M' = mkSparse (rows M) (cols M) (<[(r, c) := v]> (stored M)).
Proof.
  unfold sparse_insert, in_range. simpl.
  destruct ((0 <=? r) && (r <? rows M) && (0 <=? c) && (c <? cols M)) eqn:E.
  - destruct (stored M !! (r, c)) eqn:L.
    + split; [discriminate | intros (_ & ? & _); discriminate].
    + split.
      * intros [= <-]. repeat split; lia.
      * intros (_ & _ & ->). reflexivity.
  - split; [discriminate | intros (? & _)]. exfalso.
    apply Bool.not_true_iff_false in E. apply E.
    repeat (apply andb_true_intro; split); lia.
Qed.

Lemma insert_all_Some kvs : forall out out',
  insert_all out kvs = Some out' <->
  NoDup kvs.*1 /\
  (forall p, p ∈ kvs.*1 -> in_range out p /\ stored out !! p = None) /\
  out' = mkSparse (rows out) (cols out) (list_to_map kvs ∪ stored out).
Proof.
  induction kvs as [|[p v] kvs IH]; intros out out'.
  - unfold insert_all. simpl. rewrite (left_id_L ∅ (∪)). destruct out. simpl.
    split.
    + intros [= <-]. split; [constructor|]. split; [|done].
      intros p Hp. inversion Hp.
    + intros (_ & _ & ->). done.
  - unfold insert_all. simpl. fold (insert_all).
    destruct (sparse_insert out p.1 p.2 v) as [o1|] eqn:E1.
    + apply sparse_insert_Some in E1 as (Hr & Hn & ->).
      change (foldlM _ ?o kvs) with (insert_all o kvs).
      rewrite IH. simpl. destruct p as [r c]. simpl in *.
      split.
      * intros (Hnd & Hall & ->). split; [|split].
        -- constructor; [|done]. intros Hin. apply Hall in Hin as [_ Hin].
           by rewrite lookup_insert_eq in Hin.
        -- intros q [->|Hq]%elem_of_cons; [done|].
           apply Hall in Hq as [Hq1 Hq2]. split; [done|].
           apply lookup_insert_None in Hq2. tauto.
        -- f_equal. rewrite <- insert_union_l. symmetry. apply insert_union_r.
           apply not_elem_of_list_to_map_1. intros Hin.
           apply Hall in Hin as [_ Hin]. by rewrite lookup_insert_eq in Hin.
      * intros (Hnd & Hall & ->). inversion Hnd as [|? ? Hnot Hnd']; subst.
        split; [done|]. split.
        -- intros q Hq. split; [apply Hall; by right|].
           apply lookup_insert_None. split; [apply Hall; by right|].
           intros <-. done.
        -- f_equal. rewrite <- insert_union_l. apply insert_union_r.
           by apply not_elem_of_list_to_map_1.
    + split; [discriminate|]. intros (_ & Hall & _). exfalso.
      destruct (Hall p) as [Hr Hn]; [by left|].
      destruct p as [r c]. simpl in *.
      assert (sparse_insert out r c v = Some (mkSparse (rows out) (cols out)
                (<[(r, c) := v]> (stored out)))) as E2
        by (apply sparse_insert_Some; done).
      congruence.
Qed.

Lemma NoDup_omap_inj {A B} (f : A -> option B) (l : list A) :
  (forall x y z, f x = Some z -> f y = Some z -> x = y) ->
  NoDup l -> NoDup (omap f l).
Proof.
  intros Hinj. induction 1 as [|x l Hx Hnd IH]; simpl; [constructor|].
  destruct (f x) as [z|] eqn:E; [|done].
  constructor; [|done]. intros Hin.
  apply list_elem_of_omap in Hin as (y & Hy & Ey).
  by rewrite (Hinj _ _ _ E Ey) in Hx.
Qed.

Lemma elem_of_InnerIterator M k r c v :
  (r, c, v) ∈ InnerIterator M k <->
  c = k /\ 0 <= r < rows M /\ stored M !! (r, k) = Some v.
Proof.
  unfold InnerIterator. rewrite list_elem_of_omap. split.
  - intros (r' & Hr' & E). apply elem_of_seqZ in Hr'.
    destruct (stored M !! (r', k)) eqn:L; simpl in E; [|discriminate].
    injection E as <- <- <-. split; [done|]. split; [lia|done].
  - intros (-> & Hr & L). exists r. split; [apply elem_of_seqZ; lia|].
    by rewrite L.
Qed.

Lemma elem_of_nonzeros M r c v :
  (r, c, v) ∈ nonzeros M <->
  0 <= r < rows M /\ 0 <= c < cols M /\ stored M !! (r, c) = Some v.
Proof.
  unfold nonzeros, outerSize. rewrite list_elem_of_bind. split.
  - intros (k & Hin & Hk). apply elem_of_seqZ in Hk.
    apply elem_of_InnerIterator in Hin as (-> & Hr & L).
    split; [done|]. split; [lia|done].
  - intros (Hr & Hc & L). exists c. split; [|apply elem_of_seqZ; lia].
    by apply elem_of_InnerIterator.
Qed.

Lemma NoDup_nonzeros M : NoDup (nonzeros M).
Proof.
  unfold nonzeros. apply NoDup_bind; [| |apply NoDup_seqZ].
  - intros k1 k2 [[r c] v] _ _ H1 H2.
    apply elem_of_InnerIterator in H1 as (<- & _).
    apply elem_of_InnerIterator in H2 as (<- & _). done.
  - intros k _. unfold InnerIterator. apply NoDup_omap_inj; [|apply NoDup_seqZ].
    intros r1 r2 z E1 E2.
    destruct (stored M !! (r1, k)); simpl in E1; [|discriminate].
    destruct (stored M !! (r2, k)); simpl in E2; [|discriminate].
    congruence.
Qed.

Lemma NoDup_shift_nonzeros M i j : NoDup (shift i j <$> nonzeros M).*1.
Proof.
  rewrite <- list_fmap_compose.
  apply NoDup_fmap_2_strong; [|apply NoDup_nonzeros].
  intros [[r1 c1] v1] [[r2 c2] v2] H1 H2 E. unfold shift in E. simpl in E.
  injection E as Er Ec.
  assert (r1 = r2) as -> by lia. assert (c1 = c2) as -> by lia.
  apply elem_of_nonzeros in H1 as (_ & _ & L1).
  apply elem_of_nonzeros in H2 as (_ & _ & L2). congruence.
Qed.

Lemma elem_of_shift_nonzeros M i j p v :
  (p, v) ∈ shift i j <$> nonzeros M <->
  0 <= p.1 - i < rows M /\ 0 <= p.2 - j < cols M /\
  stored M !! (p.1 - i, p.2 - j) = Some v.
Proof.
  rewrite list_elem_of_fmap. split.
  - intros ([[r c] v'] & E & Hin). unfold shift in E. simpl in E.
    injection E as -> ->. simpl.
    apply elem_of_nonzeros in Hin.
    replace (r + i - i) with r by lia. replace (c + j - j) with c by lia. done.
  - intros (Hr & Hc & L). exists (p.1 - i, p.2 - j, v). split.
    + unfold shift. simpl. destruct p as [r c]. simpl. f_equal. f_equal; lia.
    + by apply elem_of_nonzeros.
Qed.

Lemma lookup_shift_nonzeros blk i j p :
  (list_to_map (shift i j <$> nonzeros blk) : gmap (Z * Z) float) !! p
  = block_at blk i j p.
Proof.
  unfold block_at.
  destruct (list_to_map (shift i j <$> nonzeros blk) !! p) as [v|] eqn:L.
  - apply elem_of_list_to_map in L; [|apply NoDup_shift_nonzeros].
    apply elem_of_shift_nonzeros in L as (Hr & Hc & L).
    rewrite decide_True by done. done.
  - apply not_elem_of_list_to_map in L.
    case_decide as H; [|done].
    destruct (stored blk !! (p.1 - i, p.2 - j)) as [v|] eqn:E; [|done].
    exfalso. apply L. apply list_elem_of_fmap. exists (p, v). split; [done|].
    apply elem_of_shift_nonzeros. tauto.
Qed.

Lemma lookup_with_block out blk i j p :
  stored (with_block out blk i j) !! p = block_at blk i j p ∪ stored out !! p.
Proof. simpl. by rewrite lookup_union, lookup_shift_nonzeros. Qed.

Lemma setSparseBlock_Returns_iff out blk i j out' :
  0 <= i < 2 ^ 32 -> 0 <= j < 2 ^ 32 ->
  setSparseBlock out blk i j = Returns out' <->
  fits out blk i j /\
  (forall r c v, (r, c, v) ∈ nonzeros blk -> stored out !! (r + i, c + j) = None) /\
  out' = with_block out blk i j.
Proof.
  intros Hi Hj. unfold setSparseBlock, fits.
  rewrite !to_uint32_small by done.
  destruct ((rows blk >? rows out - i) || (cols blk >? cols out - j)) eqn:G.
  - split; [discriminate|]. intros ([? ?] & _). exfalso.
    apply orb_true_iff in G as [G|G]; lia.
  - apply orb_false_iff in G as [G1 G2].
    rewrite setSparseBlock_loop.
    destruct (insert_all out (shift i j <$> nonzeros blk)) as [o|] eqn:E; simpl.
    + apply insert_all_Some in E as (_ & Hall & ->). split.
      * intros [= <-]. split; [lia|]. split; [|done].
        intros r c v Hin. apply (Hall (r + i, c + j)).
        apply list_elem_of_fmap. exists (r + i, c + j, v). split; [done|].
        apply list_elem_of_fmap. exists (r, c, v). done.
      * intros (_ & _ & ->). done.
    + split; [discriminate|]. intros (_ & Hfree & _). exfalso.
      assert (insert_all out (shift i j <$> nonzeros blk)
              = Some (with_block out blk i j)) as E'; [|congruence].
      apply insert_all_Some. split; [apply NoDup_shift_nonzeros|]. split; [|done].
      intros p Hp. apply list_elem_of_fmap in Hp as ([p' v] & -> & Hp).
      apply list_elem_of_fmap in Hp as ([[r c] v'] & E' & Hin).
      unfold shift in E'. simpl in E'. injection E' as -> ->. simpl.
      pose proof (Hfree _ _ _ Hin) as Hnone.
      apply elem_of_nonzeros in Hin as (Hr & Hc & _).
      split; [|done]. unfold in_range. simpl. lia.
Qed.


Lemma overlaps_dec out blk i j :
  overlaps out blk i j \/
  (forall r c v, (r, c, v) ∈ nonzeros blk -> stored out !! (r + i, c + j) = None).
Proof.
  destruct (decide (Exists (fun e => is_Some (stored out !! (shift i j e).1))
                           (nonzeros blk))) as [E|E].
  - left. apply Exists_exists in E as ([[r c] v] & Hin & Hs).
    exists r, c, v. done.
  - right. intros r c v Hin.
    destruct (stored out !! (r + i, c + j)) eqn:L; [|done].
    exfalso. apply E. apply Exists_exists. exists (r, c, v). split; [done|].
    unfold shift. simpl. rewrite L. by eexists.
Qed.

Lemma setSparseBlock_Throws_iff out blk i j cout what :
  0 <= i < 2 ^ 32 -> 0 <= j < 2 ^ 32 ->
  setSparseBlock out blk i j = Throws cout what <->
  ~ fits out blk i j /\
  cout = [ ("input_block.cols() = "%string, cols blk);
           ("input_block.rows() = "%string, rows blk);
           ("output_matrix.cols() - i = "%string, cols out - i);
           ("output_matrix.rows() - j = "%string, rows out - j) ] /\
  what = block_overflow_what.
Proof.
  intros Hi Hj. unfold setSparseBlock, fits.
  rewrite !to_uint32_small by done.
  destruct ((rows blk >? rows out - i) || (cols blk >? cols out - j)) eqn:G.
  - split.
    + intros [= <- <-]. split; [|done].
      apply orb_true_iff in G as [G|G]; lia.
    + intros (_ & -> & ->). done.
  - apply orb_false_iff in G as [G1 G2]. split.
    + intros H. destruct (foldlM _ _ _); discriminate.
    + intros (H & _). exfalso. apply H. lia.
Qed.

Lemma setSparseBlock_Undefined_iff out blk i j :
  0 <= i < 2 ^ 32 -> 0 <= j < 2 ^ 32 ->
  setSparseBlock out blk i j = Undefined <->
  fits out blk i j /\ overlaps out blk i j.
Proof.
  intros Hi Hj.
  destruct (setSparseBlock out blk i j) as [o|co w|] eqn:E.
  - apply setSparseBlock_Returns_iff in E as (Hf & Hfree & _); [|done..].
    split; [discriminate|]. intros (_ & r & c & v & Hin & Hs).
    rewrite (Hfree _ _ _ Hin) in Hs. by destruct Hs.
  - apply setSparseBlock_Throws_iff in E as (Hf & _); [|done..].
    split; [discriminate|]. intros (? & _). done.
  - split; [intros _|done].
    assert (fits out blk i j) as Hf.
    { unfold setSparseBlock in E. rewrite !to_uint32_small in E by done.
      destruct ((rows blk >? rows out - i) || (cols blk >? cols out - j)) eqn:G;
        [discriminate|].
      apply orb_false_iff in G as [G1 G2]. unfold fits. lia. }
    split; [done|].
    destruct (overlaps_dec out blk i j) as [Ho|Hfree]; [done|]. exfalso.
    assert (setSparseBlock out blk i j = Returns (with_block out blk i j)) as E'
      by (apply setSparseBlock_Returns_iff; done).
    congruence.
Qed.

(** C4, as amended.  For [uint32_t] offsets [i], [j]: when the block fits
    in what is left of the target ([rows blk <= rows out - i] and
    [cols blk <= cols out - j]) and no stored coefficient of the target lies
    where a block coefficient is to be written, [setSparseBlock] returns,
    the target keeps its shape, every stored coefficient [(r, c, v)] of the
    block is stored at [(r + i, c + j)], and every position that receives
    no block coefficient keeps what it had; when the block does not fit,
    the call throws the runtime error "setSparseBlock: Can't fit block"
    after printing the block's columns and rows. *)
Theorem setSparseBlock_fits_or_throws out blk i j :
  0 <= i < 2 ^ 32 -> 0 <= j < 2 ^ 32 ->
  (fits out blk i j -> ~ overlaps out blk i j ->
   exists out',
     setSparseBlock out blk i j = Returns out' /\
     rows out' = rows out /\ cols out' = cols out /\
     (forall r c v, (r, c, v) ∈ nonzeros blk ->
                    stored out' !! (r + i, c + j) = Some v) /\
     (forall p, block_at blk i j p = None -> stored out' !! p = stored out !! p))
  /\
  (~ fits out blk i j ->
   exists cout,
     setSparseBlock out blk i j = Throws cout block_overflow_what /\
     In ("input_block.cols() = "%string, cols blk) cout /\
     In ("input_block.rows() = "%string, rows blk) cout).
Proof.
  intros Hi Hj. split.
  - intros Hf Hno. exists (with_block out blk i j).
    destruct (overlaps_dec out blk i j) as [Ho|Hfree]; [done|].
    split; [by apply setSparseBlock_Returns_iff|].
    split; [done|]. split; [done|]. split.
    + intros r c v Hin. rewrite lookup_with_block.
      rewrite (Hfree _ _ _ Hin), (right_id_L None (∪)).
      apply elem_of_nonzeros in Hin as (Hr & Hc & L).
      unfold block_at. simpl.
      replace (r + i - i) with r by lia. replace (c + j - j) with c by lia.
      rewrite decide_True by lia. done.
    + intros p Hp. rewrite lookup_with_block, Hp. apply (left_id_L None (∪)).
  - intros Hnf. eexists. split.
    + apply setSparseBlock_Throws_iff; [done..|]. split; [done|]. split; reflexivity.
    + simpl. auto.
Qed.

(** C9.  For [uint32_t] offsets and a block that fits: [setSparseBlock]
    returns exactly when no stored coefficient of the target lies at a
    position [(r + i, c + j)] a stored coefficient [(r, c)] of the block
    maps to, and it is outside the domain of Eigen's [insert] exactly
    when some does; a value already stored is never overwritten and
    never added to. *)
Theorem setSparseBlock_defined_iff_no_overlap out blk i j :
  0 <= i < 2 ^ 32 -> 0 <= j < 2 ^ 32 -> fits out blk i j ->
  ((exists out', setSparseBlock out blk i j = Returns out') <-> ~ overlaps out blk i j)
  /\ (setSparseBlock out blk i j = Undefined <-> overlaps out blk i j)
  /\ (forall out' p v, setSparseBlock out blk i j = Returns out' ->
        stored out !! p = Some v ->
        stored out' !! p = Some v /\ block_at blk i j p = None).
Proof.
  intros Hi Hj Hf. split; [|split].
  - split.
    + intros [out' E] (r & c & v & Hin & Hs).
      apply setSparseBlock_Returns_iff in E as (_ & Hfree & _); [|done..].
      rewrite (Hfree _ _ _ Hin) in Hs. by destruct Hs.
    + intros Hno. exists (with_block out blk i j).
      destruct (overlaps_dec out blk i j) as [Ho|Hfree]; [done|].
      by apply setSparseBlock_Returns_iff.
  - rewrite setSparseBlock_Undefined_iff by done. tauto.
  - intros out' p v E L.
    apply setSparseBlock_Returns_iff in E as (_ & Hfree & ->); [|done..].
    assert (block_at blk i j p = None) as Hb.
    { unfold block_at. case_decide as Hr; [|done].
      destruct (stored blk !! (p.1 - i, p.2 - j)) as [w|] eqn:Lb; [|done].
      exfalso. assert ((p.1 - i, p.2 - j, w) ∈ nonzeros blk) as Hin
        by (apply elem_of_nonzeros; tauto).
      apply Hfree in Hin. destruct p as [r c]. simpl in Hin.
      replace (r - i + i) with r in Hin by lia.
      replace (c - j + j) with c in Hin by lia. congruence. }
    split; [|done]. rewrite lookup_with_block, Hb, L. done.
Qed.


Lemma no_overlap_target_2x2_block_1x2 : ~ overlaps target_2x2 block_1x2 1 0.
Proof.
  intros (r & c & v & Hin & Hs).
  apply elem_of_nonzeros in Hin as (Hr & Hc & L).
  change (rows block_1x2) with 1 in Hr. assert (r = 0) as -> by lia.
  change (cols block_1x2) with 2 in Hc.
  assert (c = 0 \/ c = 1) as [-> | ->] by lia.
  - vm_compute in L. discriminate.
  - vm_compute in Hs. by destruct Hs.
Defined.

Lemma setSparseBlock_fits_or_throws_witness :
  0 <= 1 < 2 ^ 32 /\ 0 <= 0 < 2 ^ 32 /\
  exists out',
    setSparseBlock target_2x2 block_1x2 1 0 = Returns out' /\
    stored out' !! (1, 1) = Some 7%float /\
    stored out' !! (0, 0) = Some 5%float.
Proof.
  split; [lia|]. split; [lia|].
  destruct (setSparseBlock_fits_or_throws target_2x2 block_1x2 1 0) as [H _];
    [lia..|].
  destruct H as (out' & E & _ & _ & Hw & Hk).
  - unfold fits. simpl. lia.
  - exact no_overlap_target_2x2_block_1x2.
  - exists out'. split; [exact E|]. split.
    + apply (Hw 0 1 7%float). apply elem_of_nonzeros. simpl. split; [lia|].
      split; [lia|]. reflexivity.
    + rewrite (Hk (0, 0)); reflexivity.
Defined.

Lemma setSparseBlock_defined_iff_no_overlap_witness :
  0 <= 1 < 2 ^ 32 /\ 0 <= 0 < 2 ^ 32 /\ fits target_2x2 block_1x2 1 0 /\
  exists out', setSparseBlock target_2x2 block_1x2 1 0 = Returns out'.
Proof.
  assert (fits target_2x2 block_1x2 1 0) as Hf by (unfold fits; simpl; lia).
  split; [lia|]. split; [lia|]. split; [exact Hf|].
  destruct (setSparseBlock_defined_iff_no_overlap target_2x2 block_1x2 1 0)
    as [[_ H] _]; [lia | lia | exact Hf |].
  apply H. exact no_overlap_target_2x2_block_1x2.
Defined.

(** C4 as written fails twice.  A block that fits but lands on a stored
    coefficient does not succeed; and when the block does not fit, the
    numbers printed are [cols - i] and [rows - j], neither of which is the
    number of remaining rows ([rows - i]) or columns ([cols - j]). *)
Lemma setSparseBlock_as_written_counterexample :
  (fits target_2x2 block_1x1 0 0 /\
   setSparseBlock target_2x2 block_1x1 0 0 = Undefined)
  /\
  (~ fits target_3x5 block_4x1 0 2 /\
   exists cout what,
     setSparseBlock target_3x5 block_4x1 0 2 = Throws cout what /\
     cout.*2 = [1; 4; 5; 1] /\
     rows target_3x5 - 0 = 3 /\ cols target_3x5 - 2 = 3 /\
     ~ In 3 cout.*2).
Proof.
  split.
  - split; [unfold fits; simpl; lia | reflexivity].
  - split; [unfold fits; simpl; lia|].
    eexists _, _. split; [reflexivity|]. split; [reflexivity|].
    split; [reflexivity|]. split; [reflexivity|].
    simpl. intros [H|[H|[H|[H|[]]]]]; discriminate.
Qed.


(** ** Facts about the box+affine layout *)

Arguments setIdentity : simpl never.
Arguments with_block : simpl never.

Lemma wf_sparse_bounds M : wf_sparse M = true -> 0 <= rows M /\ 0 <= cols M.
Proof.
  unfold wf_sparse. intros H.
  apply andb_prop in H as [H _]. apply andb_prop in H as [H1 H2]. lia.
Qed.

Lemma wf_sparse_lookup M r c v :
  wf_sparse M = true -> stored M !! (r, c) = Some v ->
  0 <= r < rows M /\ 0 <= c < cols M.
Proof.
  unfold wf_sparse. intros H L.
  apply andb_prop in H as [_ H].
  rewrite forallb_forall in H.
  specialize (H ((r, c), v)). simpl in H.
  assert (In ((r, c), v) (map_to_list (stored M))) as Hin
    by (apply list_elem_of_In, elem_of_map_to_list; exact L).
  apply H in Hin. lia.
Qed.

Lemma wf_sparse_outside M r c :
  wf_sparse M = true -> ~ (0 <= r < rows M /\ 0 <= c < cols M) ->
  stored M !! (r, c) = None.
Proof.
  intros Hwf Hout. destruct (stored M !! (r, c)) eqn:L; [|done].
  exfalso. apply Hout. eapply wf_sparse_lookup; eauto.
Qed.

Lemma block_at_wf blk i j p :
  wf_sparse blk = true -> block_at blk i j p = stored blk !! (p.1 - i, p.2 - j).
Proof.
  intros Hwf. unfold block_at. case_decide as H; [done|].
  symmetry. by apply wf_sparse_outside.
Qed.

Lemma lookup_setIdentity k r c :
  stored (setIdentity (emptySparse k k)) !! (r, c)
  = if decide (0 <= r < k /\ c = r) then Some 1%float else None.
Proof.
  unfold setIdentity. simpl. rewrite Z.min_id.
  set (l := map (fun k0 => ((k0, k0), 1%float)) (seqZ 0 k)).
  assert (NoDup l.*1) as Hnd.
  { unfold l. rewrite <- list_fmap_compose. apply NoDup_fmap_2_strong.
    - intros x y _ _ E. simpl in E. congruence.
    - apply NoDup_seqZ. }
  destruct (list_to_map l !! (r, c)) as [v|] eqn:L.
  - apply elem_of_list_to_map in L; [|done].
    apply list_elem_of_fmap in L as (x & E & Hx). apply elem_of_seqZ in Hx.
    injection E as -> -> ->. rewrite decide_True by lia. done.
  - apply not_elem_of_list_to_map in L. case_decide as H; [|done].
    exfalso. apply L. destruct H as [H ->].
    apply list_elem_of_fmap. exists ((r, r), 1%float). split; [done|].
    apply list_elem_of_fmap. exists r. split; [done|]. apply elem_of_seqZ. lia.
Qed.

Lemma wf_setIdentity k : 0 <= k -> wf_sparse (setIdentity (emptySparse k k)) = true.
Proof.
  intros Hk. unfold wf_sparse.
  apply andb_true_intro. split.
  - simpl. apply andb_true_intro. split; lia.
  - apply forallb_forall. intros [[r c] v] Hin.
    apply list_elem_of_In, elem_of_map_to_list in Hin.
    rewrite lookup_setIdentity in Hin. case_decide as H; [|discriminate].
    simpl. repeat (apply andb_true_intro; split); lia.
Qed.

Lemma consistent_spec qp :
  consistent qp = true ->
  let n := rows (A_qp qp) in
  wf_sparse (A_qp qp) = true /\ wf_sparse (A_eq qp) = true /\
  wf_sparse (A_ieq qp) = true /\
  cols (A_qp qp) = n /\ vrows (b_qp qp) = n /\
  vrows (lower_bound qp) = n /\ vrows (upper_bound qp) = n /\
  cols (A_eq qp) = n /\ vrows (b_eq qp) = rows (A_eq qp) /\
  cols (A_ieq qp) = n /\ vrows (b_ieq qp) = rows (A_ieq qp) /\
  n + rows (A_eq qp) + rows (A_ieq qp) < 2 ^ 32.
Proof.
  unfold consistent. intros H. cbv zeta in *.
  do 11 (apply andb_prop in H as [H ?]).
  repeat match goal with
         | E : (_ =? _) = true |- _ => apply Z.eqb_eq in E
         | E : (_ <? _) = true |- _ => apply Z.ltb_lt in E
         end.
  repeat split; assumption.
Qed.



Lemma lookup_stacked_matrix qp r c :
  consistent qp = true ->
  stored (stacked_matrix qp) !! (r, c) = stacked_constraints qp r c.
Proof.
  intros Hc. apply consistent_spec in Hc.
  destruct Hc as (Hq & He & Hi & Hcq & Hbq & Hl & Hu & Hce & Hbe & Hci & Hbi & Hsz).
  pose proof (wf_sparse_bounds _ He) as [He0 _].
  pose proof (wf_sparse_bounds _ Hi) as [Hi0 _].
  pose proof (wf_sparse_bounds _ Hq) as [Hq0 _].
  unfold stacked_matrix, stacked_constraints.
  rewrite !lookup_with_block.
  rewrite (block_at_wf (A_ieq qp)) by done.
  rewrite (block_at_wf (A_eq qp)) by done.
  rewrite block_at_wf by (apply wf_setIdentity; lia).
  cbn [fst snd emptySparse stored]. rewrite lookup_empty, lookup_setIdentity.
  rewrite !Z.sub_0_r.
  set (k := vrows (upper_bound qp)) in *.
  destruct (decide (r < k)) as [Hr|Hr].
  - rewrite (wf_sparse_outside (A_ieq qp)) by (done || lia).
    rewrite (wf_sparse_outside (A_eq qp)) by (done || lia).
    rewrite !(left_id_L None (∪)), (right_id_L None (∪)).
    destruct (decide (0 <= r /\ c = r)) as [H1|H1].
    + rewrite decide_True by lia. done.
    + rewrite decide_False by lia. done.
  - rewrite (decide_False (P := 0 <= r < k /\ c = r)) by lia.
    rewrite !(right_id_L None (∪)).
    destruct (decide (r < k + rows (A_eq qp))) as [H2|H2].
    + rewrite (wf_sparse_outside (A_ieq qp)) by (done || lia).
      rewrite (left_id_L None (∪)). done.
    + rewrite (wf_sparse_outside (A_eq qp)) by (done || lia).
      rewrite (right_id_L None (∪)). f_equal. f_equal. lia.
Qed.

Lemma stack_three_blocks qp :
  consistent qp = true ->
  let k := vrows (upper_bound qp) in
  let m := k + rows (A_eq qp) + rows (A_ieq qp) in
  let identMatrix_n := setIdentity (emptySparse k k) in
  let M0 := emptySparse m (rows (A_qp qp)) in
  let M1 := with_block M0 identMatrix_n 0 0 in
  let M2 := with_block M1 (A_eq qp) k 0 in
  setSparseBlock M0 identMatrix_n 0 0 = Returns M1 /\
  setSparseBlock M1 (A_eq qp) (rows identMatrix_n) 0 = Returns M2 /\
  setSparseBlock M2 (A_ieq qp) (rows identMatrix_n + rows (A_eq qp)) 0
  = Returns (stacked_matrix qp).
Proof.
  intros Hc. pose proof Hc as Hc'. apply consistent_spec in Hc'.
  destruct Hc' as (Hq & He & Hi & Hcq & Hbq & Hl & Hu & Hce & Hbe & Hci & Hbi & Hsz).
  pose proof (wf_sparse_bounds _ He) as [He0 _].
  pose proof (wf_sparse_bounds _ Hi) as [Hi0 _].
  pose proof (wf_sparse_bounds _ Hq) as [Hq0 _].
  intros k m identMatrix_n M0 M1 M2.
  assert (wf_sparse identMatrix_n = true) as HwfI
    by (apply wf_setIdentity; unfold k; lia).
  assert (rows identMatrix_n = k) as HrI by reflexivity.
  assert (cols identMatrix_n = k) as HcI by reflexivity.
  change (stacked_matrix qp) with (with_block M2 (A_ieq qp) (k + rows (A_eq qp)) 0).
  clearbody identMatrix_n.
  rewrite HrI. split; [|split].
  - apply setSparseBlock_Returns_iff; [lia..|]. split; [|split; [|done]].
    + unfold fits. simpl. rewrite HrI, HcI. unfold m, k. lia.
    + intros r c v _. apply lookup_empty.
  - apply setSparseBlock_Returns_iff; [unfold k; lia | lia |].
    split; [|split; [|done]].
    + unfold fits. simpl. unfold m, k. lia.
    + intros r c v Hin. apply elem_of_nonzeros in Hin as (Hr & _ & _).
      unfold M1. rewrite lookup_with_block, block_at_wf by done.
      simpl. rewrite lookup_empty, (right_id_L None (∪)).
      apply wf_sparse_outside; [done|]. rewrite HrI. lia.
  - apply setSparseBlock_Returns_iff; [unfold k; lia | lia |].
    split; [|split; [|done]].
    + unfold fits. simpl. unfold m, k. lia.
    + intros r c v Hin. apply elem_of_nonzeros in Hin as (Hr & _ & _).
      unfold M2, M1. rewrite !lookup_with_block, !block_at_wf by done.
      simpl. rewrite lookup_empty, !(right_id_L None (∪)).
      rewrite (wf_sparse_outside (A_eq qp)) by (done || lia).
      rewrite (left_id_L None (∪)).
      apply wf_sparse_outside; [done|]. rewrite HrI. lia.
Qed.

Lemma scaled_ones_vrows s (v : VecNd) :
  scaled_ones s (vrows v) = replicate (length v) (PrimFloat.mul s 1%float).
Proof.
  unfold scaled_ones, vrows. rewrite Nat2Z.id.
  induction (length v) as [|n IH]; simpl; [done|]. by rewrite IH.
Qed.

(** With the IEEE infinity for [inf], every entry [-inf * 1.0] is the
    IEEE minus infinity. *)
Lemma opp_infinity_times_one :
  PrimFloat.mul (PrimFloat.opp infinity) 1%float = neg_infinity.
Proof. reflexivity. Qed.

Section BoxAffineInit.
Variable inf : float.

(** C1.  For a [SparseQpProblem] of consistent dimensions the
    constructor of the box+affine adapter returns; the constraint matrix
    it keeps and hands to the solver is built by three calls of
    [setSparseBlock] into a fresh matrix, placing the identity at row 0,
    [A_eq] at row [k] and [A_ieq] at row [k + rows A_eq] ([k] the number
    of box bounds), so that it stores exactly the stack [I; A_eq; A_ieq];
    the lower bound is [lower_bound; -b_eq; (-inf) * 1.0, ...] and the
    upper bound is [upper_bound; -b_eq; -b_ieq], both kept and handed to
    the solver; the declared numbers of constraints and variables are the
    rows and columns of the matrix.  When [inf] is the IEEE infinity the
    last lower bounds are minus infinity. *)
Theorem initialize_box_affine (qp : SparseQpProblem) (time_limit : float)
        (verbosity : bool) :
  consistent qp = true ->
  exists this,
    BoxAffine.new_OsqpEigenOpt inf qp time_limit verbosity = Returns this /\
    (let k := vrows (upper_bound qp) in
     exists M1 M2,
       setSparseBlock
         (emptySparse (k + rows (A_eq qp) + rows (A_ieq qp)) (rows (A_qp qp)))
         (setIdentity (emptySparse k k)) 0 0 = Returns M1 /\
       setSparseBlock M1 (A_eq qp) k 0 = Returns M2 /\
       setSparseBlock M2 (A_ieq qp) (k + rows (A_eq qp)) 0
       = Returns (BoxAffine.linearConstraintsMatrix_ this)) /\
    rows (BoxAffine.linearConstraintsMatrix_ this)
    = vrows (upper_bound qp) + rows (A_eq qp) + rows (A_ieq qp) /\
    cols (BoxAffine.linearConstraintsMatrix_ this) = rows (A_qp qp) /\
    (forall r c, stored (BoxAffine.linearConstraintsMatrix_ this) !! (r, c)
                 = stacked_constraints qp r c) /\
    OsqpEigen.linearConstraintsMatrix (OsqpEigen.data (BoxAffine.solver_ this))
    = Some (BoxAffine.linearConstraintsMatrix_ this) /\
    BoxAffine.lower_bound_ this
    = lower_bound qp ++ vopp (b_eq qp)
      ++ replicate (length (b_ieq qp))
                   (PrimFloat.mul (PrimFloat.opp inf) 1%float) /\
    BoxAffine.upper_bound_ this
    = upper_bound qp ++ vopp (b_eq qp) ++ vopp (b_ieq qp) /\
    OsqpEigen.lowerBound (OsqpEigen.data (BoxAffine.solver_ this))
    = Some (BoxAffine.lower_bound_ this) /\
    OsqpEigen.upperBound (OsqpEigen.data (BoxAffine.solver_ this))
    = Some (BoxAffine.upper_bound_ this) /\
    OsqpEigen.numberOfConstraints (OsqpEigen.data (BoxAffine.solver_ this))
    = Some (rows (BoxAffine.linearConstraintsMatrix_ this)) /\
    OsqpEigen.numberOfVariables (OsqpEigen.data (BoxAffine.solver_ this))
    = Some (cols (BoxAffine.linearConstraintsMatrix_ this)) /\
    (inf = infinity ->
     BoxAffine.lower_bound_ this
     = lower_bound qp ++ vopp (b_eq qp)
       ++ replicate (length (b_ieq qp)) neg_infinity).
Proof.
  intros Hc. destruct (stack_three_blocks qp Hc) as (E1 & E2 & E3).
  eexists. split.
  { unfold BoxAffine.new_OsqpEigenOpt, BoxAffine.initializeSolver.
    cbn [BoxAffine.linearConstraintsMatrix_ BoxAffine.solver_ BoxAffine.n_
         BoxAffine.m_ BoxAffine.alpha_].
    rewrite E1. cbn [bind_outcome]. rewrite E2. cbn [bind_outcome].
    rewrite E3. cbn [bind_outcome]. reflexivity. }
  cbn [BoxAffine.linearConstraintsMatrix_ BoxAffine.solver_
       BoxAffine.lower_bound_ BoxAffine.upper_bound_].
  split.
  { eexists _, _. split; [exact E1|]. split; [exact E2|exact E3]. }
  split; [reflexivity|]. split; [reflexivity|].
  split; [intros r c; by apply lookup_stacked_matrix|].
  split; [reflexivity|].
  rewrite scaled_ones_vrows.
  split; [reflexivity|]. split; [reflexivity|].
  split; [reflexivity|]. split; [reflexivity|].
  split; [reflexivity|]. split; [reflexivity|].
  intros ->. reflexivity.
Qed.
End BoxAffineInit.

(** ** Sessions of the box+affine adapter *)

Lemma segment_assign_Some v start n src v' :
  segment_assign v start n src = Some v' <->
  0 <= start /\ 0 <= n /\ start + n <= vrows v /\ vrows src = n /\
  v' = take (Z.to_nat start) v ++ src ++ drop (Z.to_nat (start + n)) v.
Proof.
  unfold segment_assign.
  destruct ((0 <=? start) && (0 <=? n) && (start + n <=? vrows v)
            && (vrows src =? n)) eqn:G.
  - do 3 (apply andb_prop in G as [G ?]). split.
    + intros [= <-]. repeat split; lia.
    + intros (_ & _ & _ & _ & ->). done.
  - split; [discriminate|]. intros (H1 & H2 & H3 & H4 & _). exfalso.
    apply Bool.not_true_iff_false in G. apply G.
    repeat (apply andb_true_intro; split); lia.
Qed.

Lemma segment_assign_None v start n src :
  segment_assign v start n src = None <->
  ~ (0 <= start /\ 0 <= n /\ start + n <= vrows v /\ vrows src = n).
Proof.
  destruct (segment_assign v start n src) as [v'|] eqn:E.
  - apply segment_assign_Some in E. split; [discriminate|]. intros H. exfalso.
    apply H. tauto.
  - split; [intros _|done]. intros H.
    assert (segment_assign v start n src
            = Some (take (Z.to_nat start) v ++ src
                      ++ drop (Z.to_nat (start + n)) v)) as E'
      by (apply segment_assign_Some; tauto).
    congruence.
Qed.

Lemma vrows_vopp v : vrows (vopp v) = vrows v.
Proof. unfold vrows, vopp. by rewrite length_map. Qed.

Section Sessions.
Variable inf : float.
Variable osqp : OsqpEigen.Solver -> bool * VecNd * OsqpEigen.Status.

Lemma new_OsqpEigenOpt_inv qp time_limit verbosity :
  consistent qp = true ->
  exists this,
    BoxAffine.new_OsqpEigenOpt inf qp time_limit verbosity = Returns this /\
    session_inv inf qp this.
Proof.
  intros Hc. destruct (stack_three_blocks qp Hc) as (E1 & E2 & E3).
  eexists. split.
  { unfold BoxAffine.new_OsqpEigenOpt, BoxAffine.initializeSolver.
    cbn [BoxAffine.linearConstraintsMatrix_ BoxAffine.solver_ BoxAffine.n_
         BoxAffine.m_ BoxAffine.alpha_].
    rewrite E1. cbn [bind_outcome]. rewrite E2. cbn [bind_outcome].
    rewrite E3. cbn [bind_outcome]. reflexivity. }
  split; cbn [BoxAffine.linearConstraintsMatrix_ BoxAffine.solver_
              BoxAffine.lower_bound_ BoxAffine.upper_bound_ BoxAffine.b_qp_];
    try reflexivity.
  - by rewrite scaled_ones_vrows.
  - unfold vopp. rewrite !length_app, !length_map. lia.
Qed.

Lemma session_invariant qp this :
  consistent qp = true -> session inf osqp qp this -> session_inv inf qp this.
Proof.
  intros Hc. induction 1 as [tl vb this E | this g _ IH | this g b this' _ IH E
                            | this _ IH].
  - destruct (new_OsqpEigenOpt_inv qp tl vb Hc) as (this0 & E0 & Hinv).
    congruence.
  - destruct IH. split; cbn; try done.
  - unfold BoxAffine.setGradientIeqConstraintAndInit in E.
    destruct (segment_assign _ _ _ _) as [u|] eqn:Es; [|discriminate].
    cbn in E. injection E as <-.
    apply segment_assign_Some in Es as (H1 & H2 & H3 & H4 & ->).
    destruct IH. split; cbn; try done.
    rewrite !length_app, length_take, length_drop.
    unfold vrows, vopp in *. rewrite length_map in *. lia.
  - destruct IH. unfold BoxAffine.solveProblem, OsqpEigen.solveProblem.
    rewrite inv_workspace0.
    destruct (osqp _) as [[ok x] st].
    split; cbn; try done.
Qed.
End Sessions.

Section Updates.
Variable inf : float.
Variable osqp : OsqpEigen.Solver -> bool * VecNd * OsqpEigen.Status.


(** C2.  On a session of an adapter built from a consistent problem,
    [setGradientIeqConstraintAndInit b_qp b_ieq] with a vector [b_ieq] no
    longer than the problem's inequality block returns; the gradient
    becomes [b_qp]; the last entries of the upper bound, as many as
    [b_ieq] has and all of them inequality entries, become [-b_ieq], and
    the entries before them stay, the box and equality entries among
    them; with a [b_ieq] as long as the inequality block the upper bound
    is its box and equality entries followed by [-b_ieq].  The lower
    bound, the Hessian and the constraint matrix are the same before and
    after, in the adapter and in the solver data. *)
Theorem setGradientIeqConstraintAndInit_frame qp this (b_qp' b_ieq' : VecNd) :
  consistent qp = true -> session inf osqp qp this ->
  (length b_ieq' <= length (b_ieq qp))%nat ->
  exists this',
    BoxAffine.setGradientIeqConstraintAndInit this b_qp' b_ieq' = Returns this' /\
    let d := OsqpEigen.data (BoxAffine.solver_ this) in
    let d' := OsqpEigen.data (BoxAffine.solver_ this') in
    let k := length b_ieq' in
    let L := length (BoxAffine.upper_bound_ this) in
    let boxeq := (length (upper_bound qp) + length (b_eq qp))%nat in
    BoxAffine.b_qp_ this' = b_qp' /\
    OsqpEigen.gradient d' = Some b_qp' /\
    L = (boxeq + length (b_ieq qp))%nat /\
    BoxAffine.upper_bound_ this'
    = take (L - k) (BoxAffine.upper_bound_ this) ++ vopp b_ieq' /\
    take boxeq (BoxAffine.upper_bound_ this')
    = take boxeq (BoxAffine.upper_bound_ this) /\
    (k = length (b_ieq qp) ->
     BoxAffine.upper_bound_ this'
     = take boxeq (BoxAffine.upper_bound_ this) ++ vopp b_ieq') /\
    OsqpEigen.upperBound d' = Some (BoxAffine.upper_bound_ this') /\
    BoxAffine.lower_bound_ this' = BoxAffine.lower_bound_ this /\
    OsqpEigen.lowerBound d' = OsqpEigen.lowerBound d /\
    OsqpEigen.hessianMatrix d' = OsqpEigen.hessianMatrix d /\
    BoxAffine.linearConstraintsMatrix_ this' = BoxAffine.linearConstraintsMatrix_ this /\
    OsqpEigen.linearConstraintsMatrix d' = OsqpEigen.linearConstraintsMatrix d.
Proof.
  intros Hc Hs Hlen.
  destruct (session_invariant inf osqp qp this Hc Hs).
  apply consistent_spec in Hc.
  destruct Hc as (Hq & He & Hi & Hcq & Hbq & Hl & Hu & Hce & Hbe & Hci & Hbi & Hsz).
  set (k := length b_ieq'). set (L := length (BoxAffine.upper_bound_ this)).
  assert (vrows (BoxAffine.lower_bound_ this) = Z.of_nat L) as HL.
  { rewrite inv_lower0. unfold L, vrows, vopp. rewrite inv_upper_len0.
    rewrite !length_app, length_map, length_replicate.
    unfold vrows in Hl, Hu. lia. }
  assert (Z.of_nat L < 2 ^ 32) as HLs.
  { unfold L. rewrite inv_upper_len0. unfold vrows in *. lia. }
  assert (k <= L)%nat as HkL by (unfold L; rewrite inv_upper_len0; lia).
  unfold BoxAffine.setGradientIeqConstraintAndInit.
  rewrite to_uint32_small by lia.
  set (u' := take (L - k) (BoxAffine.upper_bound_ this) ++ vopp b_ieq').
  assert (segment_assign (BoxAffine.upper_bound_ this)
            (vrows (BoxAffine.lower_bound_ this) - vrows b_ieq') (vrows b_ieq')
            (vopp b_ieq') = Some u') as ->.
  { apply segment_assign_Some. rewrite vrows_vopp, HL.
    unfold vrows. fold k L.
    repeat (split; [lia|]).
    unfold u'. f_equal.
    - f_equal. lia.
    - rewrite drop_ge; [by rewrite app_nil_r|]. fold L. lia. }
  cbn. eexists. split; [reflexivity|]. cbn. fold k L.
  split; [done|]. split; [done|]. split; [exact inv_upper_len0|].
  split; [done|]. split.
  { unfold u'. rewrite take_app_le by (rewrite length_take; fold L; lia).
    rewrite take_take. f_equal. unfold L. rewrite inv_upper_len0. lia. }
  split.
  { intros Hk. unfold u'. f_equal. f_equal.
    unfold L. rewrite inv_upper_len0. lia. }
  repeat (split; [try done|]). done.
Qed.

(** C10.  On a session of an adapter built from a consistent problem, let
    [L] be the length of the stacked upper bound and [k] the length of the
    vector passed as [b_ieq].  [L] is the number of box, equality and
    inequality rows together.  Whenever [k <= L] the call returns,
    whatever the number of inequality rows is: the last [k] entries of
    the upper bound become [-b_ieq] and the first [L - k] stay, so a [k]
    above the number of inequality rows overwrites equality and box
    entries.  When [k > L] the segment starts before the vector and the
    call is outside the domain of Eigen's [segment]. *)
Theorem setGradientIeqConstraintAndInit_trailing qp this (b_qp' b_ieq' : VecNd) :
  consistent qp = true -> session inf osqp qp this ->
  let L := length (BoxAffine.upper_bound_ this) in
  let k := length b_ieq' in
  L = (length (upper_bound qp) + length (b_eq qp) + length (b_ieq qp))%nat /\
  ((k <= L)%nat ->
   exists this',
     BoxAffine.setGradientIeqConstraintAndInit this b_qp' b_ieq' = Returns this' /\
     BoxAffine.upper_bound_ this'
     = take (L - k) (BoxAffine.upper_bound_ this) ++ vopp b_ieq' /\
     (forall i, (L - k <= i < L)%nat ->
        BoxAffine.upper_bound_ this' !! i
        = PrimFloat.opp <$> b_ieq' !! (i - (L - k))%nat) /\
     (forall i, (i < L - k)%nat ->
        BoxAffine.upper_bound_ this' !! i = BoxAffine.upper_bound_ this !! i)) /\
  ((L < k)%nat ->
   BoxAffine.setGradientIeqConstraintAndInit this b_qp' b_ieq' = Undefined).
Proof.
  intros Hc Hs L k.
  destruct (session_invariant inf osqp qp this Hc Hs).
  apply consistent_spec in Hc.
  destruct Hc as (Hq & He & Hi & Hcq & Hbq & Hl & Hu & Hce & Hbe & Hci & Hbi & Hsz).
  assert (vrows (BoxAffine.lower_bound_ this) = Z.of_nat L) as HL.
  { rewrite inv_lower0. unfold L, vrows, vopp. rewrite inv_upper_len0.
    rewrite !length_app, length_map, length_replicate.
    unfold vrows in Hl, Hu. lia. }
  assert (Z.of_nat L < 2 ^ 32) as HLs.
  { unfold L. rewrite inv_upper_len0. unfold vrows in *. lia. }
  split; [exact inv_upper_len0|]. split.
  - intros Hk.
    unfold BoxAffine.setGradientIeqConstraintAndInit.
    rewrite to_uint32_small by lia.
    set (u' := take (L - k) (BoxAffine.upper_bound_ this) ++ vopp b_ieq').
    assert (segment_assign (BoxAffine.upper_bound_ this)
              (vrows (BoxAffine.lower_bound_ this) - vrows b_ieq') (vrows b_ieq')
              (vopp b_ieq') = Some u') as ->.
    { apply segment_assign_Some. rewrite vrows_vopp, HL.
      fold k. unfold vrows. fold k L.
      repeat (split; [lia|]).
      unfold u'. f_equal.
      - f_equal. lia.
      - rewrite drop_ge; [by rewrite app_nil_r|]. fold L. lia. }
    cbn. eexists. split; [reflexivity|]. cbn. split; [done|]. split.
    + intros i Hi'. unfold u'.
      rewrite lookup_app_r by (rewrite length_take; fold L; lia).
      rewrite length_take. fold L. unfold vopp.
      rewrite list_lookup_fmap. f_equal. f_equal. lia.
    + intros i Hi'. unfold u'.
      rewrite lookup_app_l by (rewrite length_take; fold L; lia).
      apply lookup_take_lt. lia.
  - intros Hk.
    unfold BoxAffine.setGradientIeqConstraintAndInit.
    rewrite to_uint32_small by lia.
    assert (segment_assign (BoxAffine.upper_bound_ this)
              (vrows (BoxAffine.lower_bound_ this) - vrows b_ieq') (vrows b_ieq')
              (vopp b_ieq') = None) as ->; [|done].
    apply segment_assign_None. rewrite HL. unfold vrows at 1. fold k. lia.
Qed.

(** C5.  [solveProblem] has no failing outcome: on an initialised session
    it returns the primal vector the solving algorithm produced, whatever
    the status (the exit flag is dropped), and leaves the status in the
    session; without a workspace it returns the vector kept from before.
    [checkFeasibility] is false exactly when that status is primal
    infeasible, and true for every other status. *)
Theorem solveProblem_total_and_feasibility this :
  (forall w ok x st,
      OsqpEigen.workspace (BoxAffine.solver_ this) = Some w ->
      osqp (BoxAffine.solver_ this) = (ok, x, st) ->
      exists this',
        BoxAffine.solveProblem osqp this = (x, this') /\
        OsqpEigen.getStatus (BoxAffine.solver_ this') = st /\
        (BoxAffine.checkFeasibility this' = false
         <-> st = OsqpEigen.PrimalInfeasible)) /\
  (OsqpEigen.workspace (BoxAffine.solver_ this) = None ->
   BoxAffine.solveProblem osqp this
   = (OsqpEigen.solution (BoxAffine.solver_ this), this)) /\
  (forall that st,
      OsqpEigen.getStatus (BoxAffine.solver_ that) = st ->
      BoxAffine.checkFeasibility that
      = match st with OsqpEigen.PrimalInfeasible => false | _ => true end).
Proof.
  assert (forall that st,
             OsqpEigen.getStatus (BoxAffine.solver_ that) = st ->
             BoxAffine.checkFeasibility that
             = match st with OsqpEigen.PrimalInfeasible => false | _ => true end)
    as Hfeas.
  { intros that st <-. unfold BoxAffine.checkFeasibility.
    destruct (OsqpEigen.getStatus (BoxAffine.solver_ that)); reflexivity. }
  split; [|split; [|exact Hfeas]].
  - intros w ok x st Hw Hrun.
    unfold BoxAffine.solveProblem, OsqpEigen.solveProblem.
    rewrite Hw, Hrun. cbn. eexists. split; [reflexivity|]. cbn.
    split; [reflexivity|].
    rewrite (Hfeas _ st) by reflexivity. destruct st; split; congruence.
  - intros Hw. unfold BoxAffine.solveProblem, OsqpEigen.solveProblem.
    rewrite Hw. cbn. destruct this. reflexivity.
Qed.
End Updates.


(** ** The inequality-only layout *)

Section IneqOnlyInit.
Variable inf : float.


(** X2.  In the inequality-only layout the declared number of constraints
    is the number of rows of the loaded matrix exactly when [A_eq] has no
    row. *)
Lemma ineq_only_count_matches_iff (qp : SparseQpProblem) (verbosity : bool) :
  let this := IneqOnly.new_OsqpEigenOpt inf qp verbosity in
  let d := OsqpEigen.data (IneqOnly.solver_ this) in
  OsqpEigen.numberOfConstraints d = rows <$> OsqpEigen.linearConstraintsMatrix d
  <-> rows (A_eq qp) = 0.
Proof.
  cbn. split.
  - intros [= E]. lia.
  - intros E. f_equal. lia.
Qed.
End IneqOnlyInit.

(** C6 at a consistent problem with an equality row: the constructor
    declares 2 constraints and hands over bounds of length 2, and loads a
    constraint matrix of 1 row. *)
Theorem ineq_only_count_mismatch :
  consistent qp_one_eq_one_ieq = true /\
  let this := IneqOnly.new_OsqpEigenOpt infinity qp_one_eq_one_ieq false in
  let d := OsqpEigen.data (IneqOnly.solver_ this) in
  OsqpEigen.numberOfConstraints d = Some 2 /\
  rows <$> OsqpEigen.linearConstraintsMatrix d = Some 1 /\
  OsqpEigen.linearConstraintsMatrix d = Some (A_ieq qp_one_eq_one_ieq) /\
  OsqpEigen.lowerBound d = Some [(-1)%float; neg_infinity] /\
  OsqpEigen.upperBound d = Some [(-1)%float; (-3)%float].
Proof.
  split; [vm_compute; reflexivity|]. cbn. repeat split; reflexivity.
Qed.

(** ** Validation of a [LinearSystem] *)

Section LinearSystemFacts.
Context {M : Type} `{Shaped M}.

Lemma checkMatrixDimensions_Ok (s : LinearSystemModel.LinearSystem M) :
  LinearSystemModel.checkMatrixDimensions s = Ok tt <->
  shape_rows (LinearSystemModel.B s) = shape_rows (LinearSystemModel.A s) /\
  shape_rows (LinearSystemModel.A s) = shape_cols (LinearSystemModel.A s) /\
  shape_cols (LinearSystemModel.C s) = shape_cols (LinearSystemModel.A s) /\
  shape_rows (LinearSystemModel.D s) = shape_rows (LinearSystemModel.C s) /\
  shape_cols (LinearSystemModel.D s) = shape_cols (LinearSystemModel.B s).
Proof.
  unfold LinearSystemModel.checkMatrixDimensions.
  destruct (_ && _) eqn:G.
  - do 4 (apply andb_prop in G as [G ?]). split; [intros _|done].
    repeat split; lia.
  - split; [discriminate|]. intros (H1 & H2 & H3 & H4 & H5). exfalso.
    apply Bool.not_true_iff_false in G. apply G.
    repeat (apply andb_true_intro; split); lia.
Qed.

End LinearSystemFacts.

(** ** The rollout matrices against the step by step simulation *)

Section RolloutFacts.
Context {scalars : ExactScalar}.
Import Rollout.
Local Open Scope nat_scope.

Add Ring K_as_ring : K_ring.

Local Notation "a ⊕ b" := (kadd a b) (at level 50, left associativity).
Local Notation "a ⊗ b" := (kmul a b) (at level 40, left associativity).

Lemma bigsum_ext n f g :
  (forall i, i < n -> f i = g i) -> bigsum n f = bigsum n g.
Proof.
  induction n as [|n IH]; intros E; simpl; [done|].
  rewrite IH by (intros i Hi; apply E; lia). rewrite E by lia. done.
Qed.

Lemma bigsum_zero n : bigsum n (fun _ => k0) = k0.
Proof. induction n as [|n IH]; simpl; [done|]. rewrite IH. ring. Qed.

Lemma bigsum_add n f g :
  bigsum n (fun i => f i ⊕ g i) = bigsum n f ⊕ bigsum n g.
Proof. induction n as [|n IH]; simpl; [ring|]. rewrite IH. ring. Qed.

Lemma bigsum_mul_l n c f :
  c ⊗ bigsum n f = bigsum n (fun i => c ⊗ f i).
Proof. induction n as [|n IH]; simpl; [ring|]. rewrite <- IH. ring. Qed.

Lemma bigsum_mul_r n c f :
  bigsum n f ⊗ c = bigsum n (fun i => f i ⊗ c).
Proof. induction n as [|n IH]; simpl; [ring|]. rewrite <- IH. ring. Qed.

Lemma bigsum_swap n m (f : nat -> nat -> K) :
  bigsum n (fun i => bigsum m (fun j => f i j))
  = bigsum m (fun j => bigsum n (fun i => f i j)).
Proof.
  induction n as [|n IH]; simpl.
  - by rewrite bigsum_zero.
  - rewrite IH, <- bigsum_add. done.
Qed.

Lemma bigsum_app a b f :
  bigsum (a + b) f = bigsum a f ⊕ bigsum b (fun q => f (a + q)).
Proof.
  induction b as [|b IH]; simpl.
  - rewrite Nat.add_0_r. ring.
  - rewrite Nat.add_succ_r. simpl. rewrite IH. ring.
Qed.

Lemma bigsum_blocks N n f :
  bigsum (N * n) f = bigsum N (fun j => bigsum n (fun q => f (j * n + q))).
Proof.
  induction N as [|N IH]; simpl; [done|].
  rewrite Nat.add_comm, bigsum_app, IH. done.
Qed.

Lemma bigsum_only N k g :
  k < N -> bigsum N (fun j => if k =? j then g j else k0) = g k.
Proof.
  induction N as [|N IH]; intros Hk; [lia|]. simpl.
  destruct (Nat.eqb_spec k N) as [->|Hne].
  - rewrite (bigsum_ext N _ (fun _ => k0)).
    + rewrite bigsum_zero. ring.
    + intros i Hi. destruct (Nat.eqb_spec N i); [lia|done].
  - rewrite IH by lia. ring.
Qed.

Lemma bigsum_upto N k g :
  k < N -> bigsum N (fun j => if j <=? k then g j else k0) = bigsum (S k) g.
Proof.
  induction N as [|N IH]; intros Hk; [lia|]. simpl.
  destruct (Nat.eq_dec k N) as [->|Hne].
  - rewrite Nat.leb_refl. f_equal.
    apply bigsum_ext. intros i Hi.
    destruct (Nat.leb_spec i N); [done|lia].
  - rewrite IH by lia. destruct (Nat.leb_spec N k); [lia|]. simpl. ring.
Qed.

Lemma coef_mmul X Y i j :
  coef (mmul X Y) i j = bigsum (ncols X) (fun l => coef X i l ⊗ coef Y l j).
Proof. reflexivity. Qed.

Lemma ncols_mmul X Y : ncols (mmul X Y) = ncols Y.
Proof. reflexivity. Qed.

Lemma mmul_assoc_coef X Y Z i j :
  coef (mmul (mmul X Y) Z) i j = coef (mmul X (mmul Y Z)) i j.
Proof.
  cbn.
  rewrite (bigsum_ext _ _
    (fun l => bigsum (ncols X) (fun m => coef X i m ⊗ coef Y m l ⊗ coef Z l j)))
    by (intros l _; apply bigsum_mul_r).
  rewrite bigsum_swap. apply bigsum_ext. intros m _.
  rewrite bigsum_mul_l. apply bigsum_ext. intros l _. ring.
Qed.

Lemma nrows_matrixPow X p : nrows (matrixPow X p) = nrows X.
Proof. induction p as [|p IH]; simpl; done. Qed.

Lemma ncols_matrixPow X p : ncols X = nrows X -> ncols (matrixPow X p) = nrows X.
Proof. intros Hsq. destruct p; simpl; done. Qed.

Lemma identity_mmul_coef n Y i j :
  i < n -> coef (mmul (identity n) Y) i j = coef Y i j.
Proof.
  intros Hi. cbn.
  rewrite (bigsum_ext _ _ (fun l => if i =? l then coef Y l j else k0)).
  - by apply (bigsum_only n i (fun l => coef Y l j)).
  - intros l _. destruct (i =? l); ring.
Qed.

Lemma mmul_identity_coef n X i j :
  ncols X = n -> j < n -> coef (mmul X (identity n)) i j = coef X i j.
Proof.
  intros Hc Hj. cbn. rewrite Hc.
  rewrite (bigsum_ext _ _ (fun l => if j =? l then coef X i l else k0)).
  - by apply (bigsum_only n j (fun l => coef X i l)).
  - intros l _. rewrite Nat.eqb_sym. destruct (j =? l); ring.
Qed.

Lemma matrixPow_comm X p : ncols X = nrows X ->
  forall i j, i < nrows X -> j < nrows X ->
  coef (mmul (matrixPow X p) X) i j = coef (mmul X (matrixPow X p)) i j.
Proof.
  intros Hsq. induction p as [|p IH]; intros i j Hi Hj.
  - simpl matrixPow. rewrite identity_mmul_coef, mmul_identity_coef; done.
  - simpl matrixPow.
    transitivity (coef (mmul (mmul X (matrixPow X p)) X) i j);
      [|apply mmul_assoc_coef].
    rewrite (coef_mmul (mmul (matrixPow X p) X) X).
    rewrite (coef_mmul (mmul X (matrixPow X p)) X).
    rewrite !ncols_mmul, ncols_matrixPow, Hsq by done.
    apply bigsum_ext. intros l Hl. f_equal. by apply IH.
Qed.

(** [X * (X^p * Y)] is [X^(p+1) * Y], on the rows of [X]. *)
Lemma mmul_matrixPow_succ X Y p i q :
  ncols X = nrows X -> i < nrows X ->
  bigsum (nrows X) (fun l => coef X i l ⊗ coef (mmul (matrixPow X p) Y) l q)
  = coef (mmul (matrixPow X (S p)) Y) i q.
Proof.
  intros Hsq Hi.
  transitivity (coef (mmul X (mmul (matrixPow X p) Y)) i q).
  { rewrite (coef_mmul X). by rewrite Hsq. }
  rewrite <- mmul_assoc_coef. simpl matrixPow.
  rewrite (coef_mmul (mmul X (matrixPow X p)) Y).
  rewrite (coef_mmul (mmul (matrixPow X p) X) Y).
  rewrite !ncols_mmul, ncols_matrixPow, Hsq by done.
  apply bigsum_ext. intros l Hl. f_equal.
  symmetry. by apply matrixPow_comm.
Qed.

(** [X * X^p] is [X^(p+1)], on the rows and columns of [X]. *)
Lemma matrixPow_succ_coef X p i j :
  ncols X = nrows X -> i < nrows X -> j < nrows X ->
  bigsum (nrows X) (fun l => coef X i l ⊗ coef (matrixPow X p) l j)
  = coef (matrixPow X (S p)) i j.
Proof.
  intros Hsq Hi Hj. simpl matrixPow.
  rewrite matrixPow_comm by done. rewrite (coef_mmul X). by rewrite Hsq.
Qed.

Lemma bigsum_double n m (a : nat -> K) (b : nat -> nat -> K) (u : nat -> K) :
  bigsum n (fun l => a l ⊗ bigsum m (fun p => b l p ⊗ u p))
  = bigsum m (fun p => bigsum n (fun l => a l ⊗ b l p) ⊗ u p).
Proof.
  rewrite (bigsum_ext n _ (fun l => bigsum m (fun p => a l ⊗ b l p ⊗ u p))).
  - rewrite bigsum_swap. apply bigsum_ext. intros p _.
    by rewrite bigsum_mul_r.
  - intros l _. rewrite bigsum_mul_l. apply bigsum_ext. intros p _. ring.
Qed.

Lemma bigsum_triple n k nu (a : nat -> K) (m : nat -> nat -> nat -> K)
      (u : nat -> nat -> K) :
  bigsum n (fun l => a l ⊗ bigsum k (fun j => bigsum nu (fun q => m j l q ⊗ u j q)))
  = bigsum k (fun j => bigsum nu (fun q => bigsum n (fun l => a l ⊗ m j l q) ⊗ u j q)).
Proof.
  rewrite (bigsum_ext n _
    (fun l => bigsum k (fun j => a l ⊗ bigsum nu (fun q => m j l q ⊗ u j q))))
    by (intros l _; apply bigsum_mul_l).
  rewrite bigsum_swap. apply bigsum_ext. intros j _.
  apply bigsum_double.
Qed.

Lemma length_mulv X v : length (mulv X v) = nrows X.
Proof. unfold mulv. by rewrite length_map, length_seq. Qed.

Lemma nth_mulv X v i :
  i < nrows X ->
  nth i (mulv X v) k0 = bigsum (ncols X) (fun j => coef X i j ⊗ nth j v k0).
Proof.
  intros Hi. unfold mulv.
  set (f := fun i => bigsum (ncols X) (fun j => coef X i j ⊗ nth j v k0)).
  rewrite (nth_indep _ k0 (f 0)) by (rewrite length_map, length_seq; done).
  rewrite map_nth, seq_nth by done. done.
Qed.

Lemma length_vadd u v : length (vadd u v) = Nat.min (length u) (length v).
Proof. apply length_zip_with. Qed.

Lemma nth_vadd u v i :
  i < length u -> i < length v ->
  nth i (vadd u v) k0 = nth i u k0 ⊕ nth i v k0.
Proof.
  revert v i. induction u as [|a u IH]; intros [|b v] i Hu Hv;
    simpl in *; try lia.
  destruct i as [|i]; [done|]. apply IH; lia.
Qed.

Lemma nth_segment (U : list K) start n q :
  q < n -> nth q (segment U start n) k0 = nth (start + q) U k0.
Proof.
  intros Hq. unfold segment. rewrite nth_firstn.
  destruct (Nat.ltb_spec q n); [|lia]. apply nth_skipn.
Qed.

Lemma nth_concat_blocks (f : nat -> list K) n N : forall a k i,
  (forall j, length (f j) = n) -> k < N -> i < n ->
  nth (k * n + i) (concat (map f (seq a N))) k0 = nth i (f (a + k)) k0.
Proof.
  induction N as [|N IH]; intros a k i Hlen Hk Hi; [lia|]. simpl.
  destruct k as [|k].
  - simpl. rewrite app_nth1 by (rewrite Hlen; done). by rewrite Nat.add_0_r.
  - rewrite app_nth2 by (rewrite Hlen; lia). rewrite Hlen.
    replace (S k * n + i - n) with (k * n + i) by lia.
    rewrite IH by (done || lia). f_equal. f_equal. lia.
Qed.

Lemma length_concat_blocks (f : nat -> list K) n N a :
  (forall j, length (f j) = n) ->
  length (concat (map f (seq a N))) = N * n.
Proof.
  intros Hlen. revert a. induction N as [|N IH]; intros a; simpl; [done|].
  rewrite length_app, Hlen, IH. done.
Qed.

(** An index below [N * n] is a block [k < N] and an offset [i < n]. *)
Lemma block_index N n r :
  r < N * n -> exists k i, k < N /\ i < n /\ r = k * n + i.
Proof.
  intros Hr. assert (n <> 0) as Hn by lia.
  exists (r / n), (r mod n). split; [|split].
  - apply Nat.Div0.div_lt_upper_bound. lia.
  - by apply Nat.mod_upper_bound.
  - rewrite (Nat.div_mod_eq r n) at 1. lia.
Qed.

Lemma block_div k n i : i < n -> (k * n + i) / n = k.
Proof.
  intros Hi. rewrite Nat.div_add_l by lia. rewrite Nat.div_small by done. lia.
Qed.

Lemma block_mod k n i : i < n -> (k * n + i) mod n = i.
Proof.
  intros Hi. rewrite Nat.add_comm, Nat.Div0.mod_add.
  by apply Nat.mod_small.
Qed.

Section ClosedForm.
Variable sys : LinearSystemModel.LinearSystem Mat.
Variables x0 U : list K.
Let A := LinearSystemModel.A sys.
Let B := LinearSystemModel.B sys.
Hypothesis A_square : ncols A = nrows A.
Hypothesis B_rows : nrows B = nrows A.

Lemma length_state_values_succ k : length (state_values sys x0 U (S k)) = nrows A.
Proof using A_square B_rows.
  simpl. rewrite length_vadd, !length_mulv. fold A B. lia.
Qed.

(** x(k) in closed form: the sum of A^(k-1-j) B u(j) over [j < k],
    plus A^k x0. *)
Lemma state_values_closed_form k : forall i, i < nrows A ->
  nth i (state_values sys x0 U k) k0
  = bigsum k (fun j =>
      bigsum (ncols B) (fun q =>
        coef (mmul (matrixPow A (k - 1 - j)) B) i q
        ⊗ nth (j * ncols B + q) U k0))
    ⊕ bigsum (nrows A) (fun p => coef (matrixPow A k) i p ⊗ nth p x0 k0).
Proof using A_square B_rows.
  induction k as [|k IH]; intros i Hi.
  - simpl.
    rewrite (bigsum_ext _ _ (fun p => if i =? p then nth p x0 k0 else k0)).
    + rewrite (bigsum_only (nrows A) i (fun p => nth p x0 k0)) by done. ring.
    + intros p _. destruct (i =? p); ring.
  - cbn [state_values]. fold A B.
    rewrite nth_vadd by (rewrite length_mulv; lia).
    rewrite !nth_mulv by lia. rewrite A_square.
    assert (bigsum (nrows A) (fun l => coef A i l ⊗ nth l (state_values sys x0 U k) k0)
            = bigsum k (fun j =>
                bigsum (ncols B) (fun q =>
                  coef (mmul (matrixPow A (S (k - 1 - j))) B) i q
                  ⊗ nth (j * ncols B + q) U k0))
              ⊕ bigsum (nrows A)
                  (fun p => coef (matrixPow A (S k)) i p ⊗ nth p x0 k0)) as E1.
    { rewrite (bigsum_ext _ _ (fun l =>
        coef A i l ⊗ bigsum k (fun j =>
          bigsum (ncols B) (fun q =>
            coef (mmul (matrixPow A (k - 1 - j)) B) l q
            ⊗ nth (j * ncols B + q) U k0))
        ⊕ coef A i l ⊗ bigsum (nrows A)
            (fun p => coef (matrixPow A k) l p ⊗ nth p x0 k0))).
      2:{ intros l Hl. rewrite IH by done. ring. }
      rewrite bigsum_add. f_equal.
      - rewrite (bigsum_triple (nrows A) k (ncols B) (fun l => coef A i l)
                   (fun j l q => coef (mmul (matrixPow A (k - 1 - j)) B) l q)
                   (fun j q => nth (j * ncols B + q) U k0)).
        apply bigsum_ext. intros j _. apply bigsum_ext. intros q _.
        f_equal. by apply mmul_matrixPow_succ.
      - rewrite (bigsum_double (nrows A) (nrows A) (fun l => coef A i l)
                   (fun l p => coef (matrixPow A k) l p)
                   (fun p => nth p x0 k0)).
        apply bigsum_ext. intros p Hp. f_equal.
        by apply matrixPow_succ_coef. }
    rewrite E1. cbn [bigsum].
    rewrite (bigsum_ext k
      (fun j => bigsum (ncols B) (fun q =>
         coef (mmul (matrixPow A (S k - 1 - j)) B) i q
         ⊗ nth (j * ncols B + q) U k0))
      (fun j => bigsum (ncols B) (fun q =>
         coef (mmul (matrixPow A (S (k - 1 - j))) B) i q
         ⊗ nth (j * ncols B + q) U k0))).
    2:{ intros j Hj. replace (S k - 1 - j) with (S (k - 1 - j)) by lia. done. }
    replace (S k - 1 - k) with 0 by lia.
    rewrite (bigsum_ext (ncols B)
      (fun q => coef (mmul (matrixPow A 0) B) i q ⊗ nth (k * ncols B + q) U k0)
      (fun q => coef B i q ⊗ nth q (segment U (k * ncols B) (ncols B)) k0)).
    2:{ intros q Hq. rewrite nth_segment by done.
        simpl matrixPow. rewrite identity_mmul_coef by done. done. }
    ring.
Qed.
End ClosedForm.

Lemma new_LinearSystem_Ok_shapes (A B C D : Mat) sys :
  LinearSystemModel.new_LinearSystem A B C D = Ok sys ->
  LinearSystemModel.A sys = A /\ LinearSystemModel.B sys = B /\
  LinearSystemModel.C sys = C /\ LinearSystemModel.D sys = D /\
  nrows B = nrows A /\ ncols A = nrows A /\ ncols C = nrows A /\
  nrows D = nrows C /\ ncols D = ncols B.
Proof.
  unfold LinearSystemModel.new_LinearSystem.
  destruct (LinearSystemModel.checkMatrixDimensions _) as [[]|e] eqn:Ec;
    [|discriminate].
  intros [= <-]. apply checkMatrixDimensions_Ok in Ec. cbn in Ec.
  repeat split; try done; lia.
Qed.

Lemma bigsum_if n (b : bool) (f : nat -> K) (u : nat -> K) :
  bigsum n (fun q => (if b then f q else k0) ⊗ u q)
  = if b then bigsum n (fun q => f q ⊗ u q) else k0.
Proof.
  destruct b; [done|].
  rewrite (bigsum_ext _ _ (fun _ => k0)) by (intros; ring).
  apply bigsum_zero.
Qed.

(** The closed forms A_mpc U + B_mpc x0 and C_mpc X against the step by
    step simulation, on the coefficients. *)
Lemma rollout_values (A B C D : Mat) sys (N : nat) (x0 U : list K) :
  LinearSystemModel.new_LinearSystem A B C D = Ok sys ->
  length U = N * ncols B -> length x0 = nrows A ->
  let mpc := new_MPC sys N x0 in
  calculateX_values mpc U = simulateX_values sys N x0 U /\
  calculateY_values mpc U = mulv (C_mpc_ mpc) (calculateX_values mpc U) /\
  calculateY_values mpc U = simulateY_values sys N x0 U.
Proof.
  intros Hsys HU Hx0 mpc.
  apply new_LinearSystem_Ok_shapes in Hsys
    as (EA & EB & EC & ED & HB & HA & HC & HD & HDc).
  assert (forall j, length (state_values sys x0 U (S j)) = nrows A) as Hlen.
  { intros j. rewrite length_state_values_succ; rewrite ?EA, ?EB; done. }
  assert (calculateX_values mpc U = simulateX_values sys N x0 U) as EX.
  { apply (nth_ext _ _ k0 k0).
    - unfold calculateX_values, simulateX_values. rewrite length_vadd, !length_mulv.
      rewrite (length_concat_blocks _ (nrows A)) by done.
      cbn. rewrite EA. lia.
    - intros r Hr. unfold calculateX_values in Hr |- *.
      rewrite length_vadd, !length_mulv in Hr. cbn in Hr. rewrite EA in Hr.
      assert (r < N * nrows A) as Hr' by lia. clear Hr.
      destruct (block_index _ _ _ Hr') as (k & i & Hk & Hi & ->).
      rewrite nth_vadd by (rewrite length_mulv; cbn; rewrite EA; lia).
      rewrite !nth_mulv by (cbn; rewrite EA; lia).
      unfold simulateX_values.
      rewrite (nth_concat_blocks _ (nrows A)) by done.
      rewrite Nat.add_0_l.
      rewrite (state_values_closed_form sys x0 U) by (rewrite ?EA, ?EB; done).
      cbn [mpc new_MPC setupMpcDynamics A_mpc_ B_mpc_ x0_ coef ncols nrows].
      rewrite EA, EB. f_equal.
      + rewrite bigsum_blocks.
        rewrite (bigsum_ext N _ (fun j =>
          if j <=? k
          then bigsum (ncols B) (fun q =>
                 coef (mmul (matrixPow A (S k - 1 - j)) B) i q
                 ⊗ nth (j * ncols B + q) U k0)
          else k0)).
        * by rewrite bigsum_upto.
        * intros j Hj.
          rewrite <- (bigsum_if (ncols B) (j <=? k)
                        (fun q => coef (mmul (matrixPow A (S k - 1 - j)) B) i q)
                        (fun q => nth (j * ncols B + q) U k0)).
          apply bigsum_ext. intros q Hq.
          rewrite block_div, block_mod by done.
          rewrite block_div, block_mod by done.
          replace (S k - 1 - j) with (k - j) by lia. done.
      + apply bigsum_ext. intros p Hp.
        rewrite block_div, block_mod by done.
        by rewrite Nat.add_1_r. }
  split; [exact EX|]. split; [reflexivity|].
  unfold calculateY_values. rewrite EX.
  apply (nth_ext _ _ k0 k0).
  - unfold simulateY_values. rewrite length_mulv.
    rewrite (length_concat_blocks _ (nrows C))
      by (intros j; rewrite length_mulv, EC; done).
    cbn. by rewrite EC.
  - intros r Hr. rewrite length_mulv in Hr. cbn in Hr. rewrite EC in Hr.
    destruct (block_index _ _ _ Hr) as (k & i & Hk & Hi & ->).
    rewrite nth_mulv by (cbn; rewrite EC; lia).
    unfold simulateY_values.
    rewrite (nth_concat_blocks _ (nrows C))
      by (try (intros j; rewrite length_mulv, EC); done).
    rewrite Nat.add_0_l, nth_mulv by (rewrite EC; done).
    cbn [mpc new_MPC setupMpcDynamics C_mpc_ coef ncols nrows].
    rewrite EA, EC, HC.
    rewrite bigsum_blocks.
    rewrite (bigsum_ext N _ (fun j =>
      if k =? j
      then bigsum (nrows A) (fun p =>
             coef C i p ⊗ nth (j * nrows A + p) (simulateX_values sys N x0 U) k0)
      else k0)).
    + rewrite (bigsum_only N k (fun j => bigsum (nrows A) (fun p =>
             coef C i p ⊗ nth (j * nrows A + p) (simulateX_values sys N x0 U) k0)))
        by done.
      apply bigsum_ext. intros p Hp. f_equal.
      unfold simulateX_values. rewrite (nth_concat_blocks _ (nrows A)) by done.
      by rewrite Nat.add_0_l.
    + intros j Hj.
      rewrite <- (bigsum_if (nrows A) (k =? j) (fun p => coef C i p)
                    (fun p => nth (j * nrows A + p) (simulateX_values sys N x0 U) k0)).
      apply bigsum_ext. intros p Hp.
      rewrite block_div, block_mod by done.
      rewrite block_div, block_mod by done. done.
Qed.

Lemma times_Some X v : length v = ncols X -> times X v = Some (mulv X v).
Proof. intros E. unfold times. rewrite E, Nat.eqb_refl. done. Qed.

Lemma plus_Some u v : length u = length v -> plus u v = Some (vadd u v).
Proof. intros E. unfold plus. rewrite E, Nat.eqb_refl. done. Qed.

Lemma segment_of_Some (U : list K) start n :
  start + n <= length U ->
  segment_of U start n = Some (segment U start n) /\
  length (segment U start n) = n.
Proof.
  intros H. unfold segment_of, segment.
  destruct (Nat.leb_spec (start + n) (length U)); [|lia].
  split; [done|]. rewrite length_take, length_drop. lia.
Qed.

Lemma mapM_Some_map {X Y} (f : X -> option Y) (g : X -> Y) (l : list X) :
  (forall x, x ∈ l -> f x = Some (g x)) -> mapM f l = Some (map g l).
Proof.
  induction l as [|x l IH]; intros H; [done|]. simpl.
  rewrite (H x) by (by left). simpl.
  rewrite IH by (intros y Hy; apply H; by right). done.
Qed.

(** With sizes that agree, every step of the simulation is defined and
    yields a state of the size of the system. *)
Lemma state_Some sys (x0 U : list K) N :
  ncols (LinearSystemModel.A sys) = nrows (LinearSystemModel.A sys) ->
  nrows (LinearSystemModel.B sys) = nrows (LinearSystemModel.A sys) ->
  length x0 = nrows (LinearSystemModel.A sys) ->
  length U = N * ncols (LinearSystemModel.B sys) ->
  forall k, k <= N ->
    state sys x0 U k = Some (state_values sys x0 U k) /\
    length (state_values sys x0 U k) = nrows (LinearSystemModel.A sys).
Proof.
  intros HA HB Hx0 HU. induction k as [|k IH]; intros Hk; [done|].
  destruct IH as [IH1 IH2]; [lia|].
  split; [|by apply length_state_values_succ].
  cbn [state state_values]. rewrite IH1. cbn.
  destruct (segment_of_Some U (k * ncols (LinearSystemModel.B sys))
              (ncols (LinearSystemModel.B sys))) as [-> Hlen].
  { rewrite HU. nia. }
  cbn. unfold step.
  rewrite (times_Some (LinearSystemModel.A sys)) by (rewrite IH2; done). cbn.
  rewrite (times_Some (LinearSystemModel.B sys)) by done. cbn.
  apply plus_Some. rewrite !length_mulv. done.
Qed.

End RolloutFacts.


(** ** The theorems at concrete inputs *)

Lemma consistent_qp_one : consistent qp_one_eq_one_ieq = true.
Proof. vm_compute. reflexivity. Defined.

Lemma new_session_one :
  BoxAffine.new_OsqpEigenOpt infinity qp_one_eq_one_ieq 0%float false
  = Returns session_one.
Proof. vm_compute. reflexivity. Defined.

Lemma session_session_one :
  session infinity osqp_trivial qp_one_eq_one_ieq session_one.
Proof. exact (session_new _ _ _ _ _ _ new_session_one). Defined.

Lemma initialize_box_affine_witness :
  consistent qp_one_eq_one_ieq = true /\
  exists this,
    BoxAffine.new_OsqpEigenOpt infinity qp_one_eq_one_ieq 0%float false
    = Returns this /\
    BoxAffine.lower_bound_ this = [(-5)%float; (-1)%float; neg_infinity] /\
    BoxAffine.upper_bound_ this = [5%float; (-1)%float; (-3)%float].
Proof.
  split; [exact consistent_qp_one|].
  destruct (initialize_box_affine infinity qp_one_eq_one_ieq 0%float false
              consistent_qp_one)
    as (this & E & _ & _ & _ & _ & _ & _ & Hu & _ & _ & _ & _ & Hl).
  exists this. split; [exact E|]. split; [exact (Hl eq_refl)|exact Hu].
Defined.


Lemma setGradientIeqConstraintAndInit_frame_witness :
  consistent qp_one_eq_one_ieq = true /\
  session infinity osqp_trivial qp_one_eq_one_ieq session_one /\
  (length [4%float] <= length (b_ieq qp_one_eq_one_ieq))%nat /\
  exists this',
    BoxAffine.setGradientIeqConstraintAndInit session_one [7%float] [4%float]
    = Returns this' /\
    BoxAffine.upper_bound_ this' = [5%float; (-1)%float; (-4)%float].
Proof.
  split; [exact consistent_qp_one|]. split; [exact session_session_one|].
  split; [exact (le_n 1)|].
  destruct (setGradientIeqConstraintAndInit_frame infinity osqp_trivial
              qp_one_eq_one_ieq session_one [7%float] [4%float]
              consistent_qp_one session_session_one (le_n 1))
    as (this' & E & _ & _ & _ & Hu & _).
  exists this'. split; [exact E|exact Hu].
Defined.

(** A vector of two entries on a problem with one inequality row: the
    equality entry of the upper bound is overwritten too. *)
Lemma setGradientIeqConstraintAndInit_trailing_witness :
  consistent qp_one_eq_one_ieq = true /\
  session infinity osqp_trivial qp_one_eq_one_ieq session_one /\
  exists this',
    BoxAffine.setGradientIeqConstraintAndInit session_one [7%float]
                                              [8%float; 4%float]
    = Returns this' /\
    BoxAffine.upper_bound_ session_one = [5%float; (-1)%float; (-3)%float] /\
    BoxAffine.upper_bound_ this' = [5%float; (-8)%float; (-4)%float].
Proof.
  split; [exact consistent_qp_one|]. split; [exact session_session_one|].
  destruct (setGradientIeqConstraintAndInit_trailing infinity osqp_trivial
              qp_one_eq_one_ieq session_one [7%float] [8%float; 4%float]
              consistent_qp_one session_session_one)
    as (_ & H & _).
  destruct H as (this' & E & Hu & _); [vm_compute; lia|].
  exists this'. split; [exact E|]. split; [reflexivity|exact Hu].
Defined.


(** ** More on the sparse block inserter *)

Lemma wf_sparse_intro M :
  0 <= rows M -> 0 <= cols M ->
  (forall r c v, stored M !! (r, c) = Some v ->
                 0 <= r < rows M /\ 0 <= c < cols M) ->
  wf_sparse M = true.
Proof.
  intros Hr Hc H. unfold wf_sparse.
  apply andb_true_intro. split; [apply andb_true_intro; split; lia|].
  apply forallb_forall. intros [[r c] v] Hin.
  apply list_elem_of_In, elem_of_map_to_list in Hin. apply H in Hin.
  repeat (apply andb_true_intro; split); lia.
Qed.

Lemma block_at_Some blk i j p v :
  block_at blk i j p = Some v <->
  (p.1 - i, p.2 - j, v) ∈ nonzeros blk.
Proof.
  unfold block_at. rewrite elem_of_nonzeros. case_decide as H.
  - tauto.
  - split; [discriminate|]. intros (? & ? & _). tauto.
Qed.

Lemma block_at_shifted blk i j r c v :
  (r, c, v) ∈ nonzeros blk -> block_at blk i j (r + i, c + j) = Some v.
Proof.
  intros Hin. apply block_at_Some. simpl.
  replace (r + i - i) with r by lia. replace (c + j - j) with c by lia. done.
Qed.

(** X3.  Whenever [setSparseBlock] returns on a target whose stored
    coefficients lie inside it, the result has the shape of the target and
    its stored coefficients lie inside it again, whatever the block
    stores. *)
Theorem setSparseBlock_keeps_wf out blk i j out' :
  0 <= i < 2 ^ 32 -> 0 <= j < 2 ^ 32 ->
  wf_sparse out = true ->
  setSparseBlock out blk i j = Returns out' ->
  wf_sparse out' = true /\ rows out' = rows out /\ cols out' = cols out.
Proof.
  intros Hi Hj Hwf E.
  apply setSparseBlock_Returns_iff in E as ([Hf1 Hf2] & _ & ->); [|done..].
  split; [|done].
  pose proof (wf_sparse_bounds _ Hwf) as [Hr Hc].
  apply wf_sparse_intro; [done..|].
  intros r c v L. rewrite lookup_with_block in L.
  destruct (block_at blk i j (r, c)) as [w|] eqn:Hb.
  - apply block_at_Some in Hb. apply elem_of_nonzeros in Hb as (H1 & H2 & _).
    simpl in *. change (rows (with_block out blk i j)) with (rows out).
    change (cols (with_block out blk i j)) with (cols out). lia.
  - rewrite (left_id_L None (∪)) in L.
    by apply (wf_sparse_lookup out r c v).
Qed.

(** X4.  Two blocks that can be inserted one after the other can be
    inserted in the other order as well, and the resulting matrix is the
    same. *)
Theorem setSparseBlock_commute out b1 i1 j1 b2 i2 j2 M1 M12 :
  0 <= i1 < 2 ^ 32 -> 0 <= j1 < 2 ^ 32 ->
  0 <= i2 < 2 ^ 32 -> 0 <= j2 < 2 ^ 32 ->
  setSparseBlock out b1 i1 j1 = Returns M1 ->
  setSparseBlock M1 b2 i2 j2 = Returns M12 ->
  exists M2,
    setSparseBlock out b2 i2 j2 = Returns M2 /\
    setSparseBlock M2 b1 i1 j1 = Returns M12.
Proof.
  intros Hi1 Hj1 Hi2 Hj2 E1 E2.
  apply setSparseBlock_Returns_iff in E1 as (Hf1 & Hfree1 & ->); [|done..].
  apply setSparseBlock_Returns_iff in E2 as (Hf2 & Hfree2 & ->); [|done..].
  assert (forall p v, block_at b2 i2 j2 p = Some v ->
                      block_at b1 i1 j1 p = None /\ stored out !! p = None)
    as Hdisj.
  { intros [r c] v Hb. apply block_at_Some in Hb. simpl in Hb.
    apply Hfree2 in Hb. rewrite lookup_with_block in Hb.
    replace (r - i2 + i2) with r in Hb by lia.
    replace (c - j2 + j2) with c in Hb by lia.
    destruct (block_at b1 i1 j1 (r, c)), (stored out !! (r, c)); done. }
  exists (with_block out b2 i2 j2). split.
  - apply setSparseBlock_Returns_iff; [done..|]. split; [exact Hf2|].
    split; [|done]. intros r c v Hin.
    apply (Hdisj (r + i2, c + j2) v). by apply block_at_shifted.
  - apply setSparseBlock_Returns_iff; [done..|]. split; [exact Hf1|]. split.
    + intros r c v Hin. rewrite lookup_with_block.
      rewrite (Hfree1 _ _ _ Hin), (right_id_L None (∪)).
      destruct (block_at b2 i2 j2 (r + i1, c + j1)) as [w|] eqn:Hb; [|done].
      apply Hdisj in Hb as [Hb _].
      by rewrite (block_at_shifted b1 i1 j1 r c v) in Hb.
    + unfold with_block at 1 3. f_equal. apply map_eq. intros p.
      rewrite !lookup_union, !lookup_shift_nonzeros.
      fold (stored (with_block out b1 i1 j1)).
      change (stored (with_block out b1 i1 j1))
        with (list_to_map (shift i1 j1 <$> nonzeros b1) ∪ stored out).
      change (stored (with_block out b2 i2 j2))
        with (list_to_map (shift i2 j2 <$> nonzeros b2) ∪ stored out).
      rewrite !lookup_union, !lookup_shift_nonzeros.
      destruct (block_at b2 i2 j2 p) as [w|] eqn:Hb.
      * apply Hdisj in Hb as [-> ->]. done.
      * rewrite !(left_id_L None (∪)). done.
Qed.

Lemma with_block_empty out blk i j :
  nonzeros blk = [] -> with_block out blk i j = out.
Proof.
  intros E. unfold with_block. rewrite E. simpl.
  rewrite (left_id_L ∅ (∪)). by destruct out.
Qed.

(** X5.  A block that stores nothing: if it fits, [setSparseBlock] returns
    the target as it was; if it does not fit it is refused like any other
    block, so that a block of no rows and no columns is refused exactly
    when an offset lies beyond the target. *)
Theorem setSparseBlock_empty_block out blk i j :
  0 <= i < 2 ^ 32 -> 0 <= j < 2 ^ 32 ->
  stored blk = ∅ ->
  (fits out blk i j -> setSparseBlock out blk i j = Returns out) /\
  (~ fits out blk i j ->
   exists cout, setSparseBlock out blk i j = Throws cout block_overflow_what) /\
  (rows blk = 0 -> cols blk = 0 ->
   (fits out blk i j <-> i <= rows out /\ j <= cols out)).
Proof.
  intros Hi Hj He.
  assert (nonzeros blk = []) as Hnz.
  { destruct (nonzeros blk) as [|[[r c] v] l] eqn:E; [done|]. exfalso.
    assert ((r, c, v) ∈ nonzeros blk) as Hin by (rewrite E; by left).
    apply elem_of_nonzeros in Hin as (_ & _ & L).
    rewrite He in L. by rewrite lookup_empty in L. }
  split; [|split].
  - intros Hf. apply setSparseBlock_Returns_iff; [done..|].
    split; [done|]. split.
    + intros r c v Hin. rewrite Hnz in Hin. inversion Hin.
    + symmetry. by apply with_block_empty.
  - intros Hnf. eexists. apply setSparseBlock_Throws_iff; [done..|].
    split; [done|]. split; reflexivity.
  - intros Hr Hc. unfold fits. rewrite Hr, Hc. lia.
Qed.

(** X6.  After [setSparseBlock] has written a block with a stored
    coefficient, writing the same block at the same offsets again is
    outside the domain of Eigen's [insert]: the operation is not
    idempotent. *)
Theorem setSparseBlock_twice_undefined out blk i j out' :
  0 <= i < 2 ^ 32 -> 0 <= j < 2 ^ 32 ->
  nonzeros blk <> [] ->
  setSparseBlock out blk i j = Returns out' ->
  setSparseBlock out' blk i j = Undefined.
Proof.
  intros Hi Hj Hne E.
  apply setSparseBlock_Returns_iff in E as (Hf & Hfree & ->); [|done..].
  apply setSparseBlock_Undefined_iff; [done..|]. split; [exact Hf|].
  destruct (nonzeros blk) as [|[[r c] v] l] eqn:En; [done|].
  assert ((r, c, v) ∈ nonzeros blk) as Hin by (rewrite En; by left).
  exists r, c, v. split; [exact Hin|].
  rewrite lookup_with_block, (block_at_shifted blk i j r c v Hin).
  destruct (stored out !! (r + i, c + j)); by eexists.
Qed.

(** ** More on the box+affine adapter *)

Lemma block_at_outside blk i j p :
  ~ (0 <= p.1 - i < rows blk /\ 0 <= p.2 - j < cols blk) ->
  block_at blk i j p = None.
Proof. intros H. unfold block_at. by rewrite decide_False. Qed.

Lemma rows_setIdentity M : rows (setIdentity M) = rows M.
Proof. reflexivity. Qed.

Lemma cols_setIdentity M : cols (setIdentity M) = cols M.
Proof. reflexivity. Qed.

(** The three calls of [setSparseBlock] of the constructor on problems of
    any widths: each one returns when its block is not wider than the
    matrix and throws otherwise. *)
Lemma stack_three_blocks_any qp :
  0 <= rows (A_eq qp) -> 0 <= rows (A_ieq qp) ->
  vrows (upper_bound qp) + rows (A_eq qp) < 2 ^ 32 ->
  let k := vrows (upper_bound qp) in
  let n := rows (A_qp qp) in
  let m := k + rows (A_eq qp) + rows (A_ieq qp) in
  let identMatrix_n := setIdentity (emptySparse k k) in
  let M0 := emptySparse m n in
  let M1 := with_block M0 identMatrix_n 0 0 in
  let M2 := with_block M1 (A_eq qp) k 0 in
  (k <= n -> setSparseBlock M0 identMatrix_n 0 0 = Returns M1) /\
  (~ k <= n -> exists cout,
      setSparseBlock M0 identMatrix_n 0 0 = Throws cout block_overflow_what) /\
  (cols (A_eq qp) <= n ->
   setSparseBlock M1 (A_eq qp) (rows identMatrix_n) 0 = Returns M2) /\
  (~ cols (A_eq qp) <= n -> exists cout,
      setSparseBlock M1 (A_eq qp) (rows identMatrix_n) 0
      = Throws cout block_overflow_what) /\
  (cols (A_ieq qp) <= n ->
   setSparseBlock M2 (A_ieq qp) (rows identMatrix_n + rows (A_eq qp)) 0
   = Returns (stacked_matrix qp)) /\
  (~ cols (A_ieq qp) <= n -> exists cout,
      setSparseBlock M2 (A_ieq qp) (rows identMatrix_n + rows (A_eq qp)) 0
      = Throws cout block_overflow_what).
Proof.
  intros He Hi Hsz k n m identMatrix_n M0 M1 M2.
  assert (0 <= k) as Hk by (unfold k, vrows; lia).
  assert (rows identMatrix_n = k) as HrI by reflexivity.
  assert (cols identMatrix_n = k) as HcI by reflexivity.
  change (stacked_matrix qp) with (with_block M2 (A_ieq qp) (k + rows (A_eq qp)) 0).
  clearbody identMatrix_n. rewrite HrI.
  assert (forall (out blk : SparseMat) i j,
             0 <= i < 2 ^ 32 -> 0 <= j < 2 ^ 32 -> ~ fits out blk i j ->
             exists cout, setSparseBlock out blk i j = Throws cout block_overflow_what)
    as Hthrow.
  { intros out blk i j Hi' Hj' Hnf. eexists.
    apply setSparseBlock_Throws_iff; [done..|]. split; [done|]. split; reflexivity. }
  repeat split.
  - intros Hfit. apply setSparseBlock_Returns_iff; [lia..|].
    split; [|split; [|done]].
    + unfold fits. simpl. rewrite HrI, HcI. unfold m. lia.
    + intros r c v _. apply lookup_empty.
  - intros Hnf. apply Hthrow; [lia..|]. unfold fits. simpl. rewrite HcI. lia.
  - intros Hfit. apply setSparseBlock_Returns_iff; [lia..|].
    split; [|split; [|done]].
    + unfold fits. simpl. unfold m. lia.
    + intros r c v Hin. apply elem_of_nonzeros in Hin as (Hr & _ & _).
      unfold M1. rewrite lookup_with_block. simpl.
      rewrite lookup_empty, (right_id_L None (∪)).
      apply block_at_outside. simpl. rewrite HrI. lia.
  - intros Hnf. apply Hthrow; [lia..|]. unfold fits. simpl. lia.
  - intros Hfit. apply setSparseBlock_Returns_iff; [lia..|].
    split; [|split; [|done]].
    + unfold fits. simpl. unfold m. lia.
    + intros r c v Hin. apply elem_of_nonzeros in Hin as (Hr & _ & _).
      unfold M2, M1. rewrite !lookup_with_block. simpl.
      rewrite lookup_empty, !(right_id_L None (∪)).
      rewrite (block_at_outside (A_eq qp)) by (simpl; lia).
      rewrite (left_id_L None (∪)).
      apply block_at_outside. simpl. rewrite HrI. lia.
  - intros Hnf. apply Hthrow; [lia..|]. unfold fits. simpl. lia.
Qed.

Section ConstructorErrors.
Variable inf : float.

(** X7.  The constructor of the box+affine adapter checks widths only.
    For a problem whose matrices have at least zero rows and whose first
    two row offsets are [uint32_t] values: it returns exactly when the
    number of box bounds and the columns of [A_eq] and of [A_ieq] do not
    exceed [A_qp.rows()], and throws "setSparseBlock: Can't fit block"
    otherwise; it is never outside the domain of an Eigen operation.  When
    it returns, the bounds are the concatenations of the vectors as they
    were given, whatever their lengths, and [m_] is the number of rows of
    the matrix. *)
Theorem new_OsqpEigenOpt_returns_iff_blocks_fit (qp : SparseQpProblem)
        (time_limit : float) (verbosity : bool) :
  0 <= rows (A_eq qp) -> 0 <= rows (A_ieq qp) ->
  vrows (upper_bound qp) + rows (A_eq qp) < 2 ^ 32 ->
  (blocks_fit qp <->
   exists this,
     BoxAffine.new_OsqpEigenOpt inf qp time_limit verbosity = Returns this) /\
  (~ blocks_fit qp ->
   exists cout,
     BoxAffine.new_OsqpEigenOpt inf qp time_limit verbosity
     = Throws cout block_overflow_what) /\
  BoxAffine.new_OsqpEigenOpt inf qp time_limit verbosity <> Undefined /\
  (forall this,
      BoxAffine.new_OsqpEigenOpt inf qp time_limit verbosity = Returns this ->
      BoxAffine.linearConstraintsMatrix_ this = stacked_matrix qp /\
      BoxAffine.m_ this = rows (stacked_matrix qp) /\
      BoxAffine.n_ this = cols (stacked_matrix qp) /\
      BoxAffine.lower_bound_ this
      = lower_bound qp ++ vopp (b_eq qp)
        ++ replicate (length (b_ieq qp))
                     (PrimFloat.mul (PrimFloat.opp inf) 1%float) /\
      BoxAffine.upper_bound_ this
      = upper_bound qp ++ vopp (b_eq qp) ++ vopp (b_ieq qp)).
Proof.
  intros He Hi Hsz.
  destruct (stack_three_blocks_any qp He Hi Hsz)
    as (R1 & T1 & R2 & T2 & R3 & T3).
  set (new := BoxAffine.new_OsqpEigenOpt inf qp time_limit verbosity).
  assert (~ blocks_fit qp -> exists cout, new = Throws cout block_overflow_what)
    as Hthrows.
  { intros Hnf. unfold new, BoxAffine.new_OsqpEigenOpt, BoxAffine.initializeSolver.
    cbn [BoxAffine.linearConstraintsMatrix_ BoxAffine.solver_ BoxAffine.n_
         BoxAffine.m_ BoxAffine.alpha_].
    destruct (decide (vrows (upper_bound qp) <= rows (A_qp qp))) as [H1|H1].
    - rewrite (R1 H1). cbn [bind_outcome].
      destruct (decide (cols (A_eq qp) <= rows (A_qp qp))) as [H2|H2].
      + rewrite (R2 H2). cbn [bind_outcome].
        destruct (decide (cols (A_ieq qp) <= rows (A_qp qp))) as [H3|H3].
        * exfalso. apply Hnf. done.
        * destruct (T3 H3) as [cout ->]. by exists cout.
      + destruct (T2 H2) as [cout ->]. by exists cout.
    - destruct (T1 H1) as [cout ->]. by exists cout. }
  assert (blocks_fit qp -> exists this,
             new = Returns this /\
             BoxAffine.linearConstraintsMatrix_ this = stacked_matrix qp /\
             BoxAffine.m_ this = rows (stacked_matrix qp) /\
             BoxAffine.n_ this = cols (stacked_matrix qp) /\
             BoxAffine.lower_bound_ this
             = lower_bound qp ++ vopp (b_eq qp)
               ++ replicate (length (b_ieq qp))
                            (PrimFloat.mul (PrimFloat.opp inf) 1%float) /\
             BoxAffine.upper_bound_ this
             = upper_bound qp ++ vopp (b_eq qp) ++ vopp (b_ieq qp))
    as Hreturns.
  { intros (H1 & H2 & H3). eexists. split.
    { unfold new, BoxAffine.new_OsqpEigenOpt, BoxAffine.initializeSolver.
      cbn [BoxAffine.linearConstraintsMatrix_ BoxAffine.solver_ BoxAffine.n_
           BoxAffine.m_ BoxAffine.alpha_].
      rewrite (R1 H1). cbn [bind_outcome]. rewrite (R2 H2). cbn [bind_outcome].
      rewrite (R3 H3). cbn [bind_outcome]. reflexivity. }
    cbn [BoxAffine.linearConstraintsMatrix_ BoxAffine.lower_bound_
         BoxAffine.upper_bound_ BoxAffine.n_ BoxAffine.m_].
    rewrite scaled_ones_vrows. repeat split; reflexivity. }
  assert (Decision (blocks_fit qp)) as Hdec by (unfold blocks_fit; apply _).
  split; [|split; [exact Hthrows|split]].
  - split.
    + intros Hf. destruct (Hreturns Hf) as (this & E & _). by exists this.
    + intros [this E]. destruct Hdec as [Hf|Hnf]; [done|].
      destruct (Hthrows Hnf) as [cout E']. congruence.
  - destruct Hdec as [Hf|Hnf].
    + destruct (Hreturns Hf) as (this & -> & _). discriminate.
    + destruct (Hthrows Hnf) as [cout ->]. discriminate.
  - intros this E. destruct Hdec as [Hf|Hnf].
    + destruct (Hreturns Hf) as (this0 & E0 & H). rewrite E0 in E.
      injection E as <-. exact H.
    + destruct (Hthrows Hnf) as [cout E']. congruence.
Qed.
End ConstructorErrors.

Lemma opp_involutive (x : float) : PrimFloat.opp (PrimFloat.opp x) = x.
Proof.
  apply Prim2SF_inj. rewrite !opp_spec.
  destruct (Prim2SF x) as [s|s| |s m e]; simpl; try reflexivity;
    destruct s; reflexivity.
Qed.

Lemma vopp_involutive (v : VecNd) : vopp (vopp v) = v.
Proof.
  unfold vopp. induction v as [|x v IH]; simpl; [done|].
  by rewrite opp_involutive, IH.
Qed.

Section SessionFacts.
Variable inf : float.
Variable osqp : OsqpEigen.Solver -> bool * VecNd * OsqpEigen.Status.

Lemma new_OsqpEigenOpt_sizes qp time_limit verbosity this :
  consistent qp = true ->
  BoxAffine.new_OsqpEigenOpt inf qp time_limit verbosity = Returns this ->
  BoxAffine.n_ this = rows (A_qp qp) /\
  BoxAffine.m_ this
  = vrows (upper_bound qp) + rows (A_eq qp) + rows (A_ieq qp) /\
  OsqpEigen.numberOfVariables (OsqpEigen.data (BoxAffine.solver_ this))
  = Some (rows (A_qp qp)) /\
  OsqpEigen.numberOfConstraints (OsqpEigen.data (BoxAffine.solver_ this))
  = Some (vrows (upper_bound qp) + rows (A_eq qp) + rows (A_ieq qp)) /\
  OsqpEigen.history (BoxAffine.solver_ this)
  = [OsqpEigen.ClearSolver; OsqpEigen.InitSolver] /\
  OsqpEigen.status (BoxAffine.solver_ this) = OsqpEigen.Unsolved /\
  OsqpEigen.solution (BoxAffine.solver_ this) = [].
Proof.
  intros Hc E. destruct (stack_three_blocks qp Hc) as (E1 & E2 & E3).
  unfold BoxAffine.new_OsqpEigenOpt, BoxAffine.initializeSolver in E.
  cbn [BoxAffine.linearConstraintsMatrix_ BoxAffine.solver_ BoxAffine.n_
       BoxAffine.m_ BoxAffine.alpha_] in E.
  rewrite E1 in E. cbn [bind_outcome] in E. rewrite E2 in E.
  cbn [bind_outcome] in E. rewrite E3 in E. cbn [bind_outcome] in E.
  injection E as <-. cbn. repeat split; reflexivity.
Qed.

(** X8.  On a session of an adapter built from a consistent problem with
    at least one variable, [initializeSolver] never returns when it is
    called again, whatever problem with at least one box bound it is given:
    the identity block lands on the identity already stored, which is
    outside the domain of Eigen's [insert], unless the block does not fit
    and the call throws. *)
Theorem initializeSolver_again_never_returns qp this qp'
        (time_limit : float) (verbosity : bool) :
  consistent qp = true -> session inf osqp qp this ->
  upper_bound qp <> [] -> upper_bound qp' <> [] ->
  BoxAffine.initializeSolver inf this qp' time_limit verbosity = Undefined \/
  exists cout,
    BoxAffine.initializeSolver inf this qp' time_limit verbosity
    = Throws cout block_overflow_what.
Proof.
  intros Hc Hs Hne Hne'.
  destruct (session_invariant inf osqp qp this Hc Hs).
  set (k' := vrows (upper_bound qp')).
  assert (1 <= k') as Hk'.
  { unfold k', vrows. destruct (upper_bound qp'); [done|]. simpl. lia. }
  assert (1 <= vrows (upper_bound qp)) as Hk.
  { unfold vrows. destruct (upper_bound qp); [done|]. simpl. lia. }
  set (I' := setIdentity (emptySparse k' k')).
  assert (setSparseBlock (stacked_matrix qp) I' 0 0 = Undefined \/
          exists cout, setSparseBlock (stacked_matrix qp) I' 0 0
                       = Throws cout block_overflow_what) as Hfirst.
  { assert (Decision (fits (stacked_matrix qp) I' 0 0)) as [Hf|Hnf]
      by (unfold fits; apply _).
    - left. apply setSparseBlock_Undefined_iff; [lia..|]. split; [done|].
      exists 0, 0, 1%float. split.
      + apply elem_of_nonzeros. unfold I'.
        rewrite rows_setIdentity, cols_setIdentity, lookup_setIdentity.
        simpl. rewrite decide_True by lia. repeat split; lia.
      + change (0 + 0) with 0.
        rewrite (lookup_stacked_matrix qp 0 0 Hc). unfold stacked_constraints.
        rewrite decide_True by lia. rewrite decide_True by lia. by eexists.
    - right. eexists. apply setSparseBlock_Throws_iff; [lia..|].
      split; [done|]. split; reflexivity. }
  unfold BoxAffine.initializeSolver. rewrite inv_lcm0. fold k'. fold I'.
  destruct Hfirst as [-> | [cout ->]]; cbn [bind_outcome].
  - by left.
  - right. by exists cout.
Qed.

(** X9.  What no update and no solve ever changes: on every session of an
    adapter built from a consistent problem the constraint matrix is the
    stack built by the constructor, the lower bound is the one the
    constructor set, [n_], [m_] and the declared numbers of variables and
    constraints are the columns and rows of the matrix, the Hessian is
    [A_qp], the upper bound has [m_] entries, the solver data holds the
    adapter's gradient, matrix and bounds, and the workspace is a copy of
    the solver data. *)
Theorem session_structure_fixed qp this :
  consistent qp = true -> session inf osqp qp this ->
  let d := OsqpEigen.data (BoxAffine.solver_ this) in
  BoxAffine.linearConstraintsMatrix_ this = stacked_matrix qp /\
  BoxAffine.lower_bound_ this
  = lower_bound qp ++ vopp (b_eq qp)
    ++ replicate (length (b_ieq qp)) (PrimFloat.mul (PrimFloat.opp inf) 1%float) /\
  BoxAffine.n_ this = cols (stacked_matrix qp) /\
  BoxAffine.m_ this = rows (stacked_matrix qp) /\
  vrows (BoxAffine.upper_bound_ this) = BoxAffine.m_ this /\
  vrows (BoxAffine.lower_bound_ this) = BoxAffine.m_ this /\
  OsqpEigen.numberOfVariables d = Some (BoxAffine.n_ this) /\
  OsqpEigen.numberOfConstraints d = Some (BoxAffine.m_ this) /\
  OsqpEigen.hessianMatrix d = Some (A_qp qp) /\
  OsqpEigen.gradient d = Some (BoxAffine.b_qp_ this) /\
  OsqpEigen.linearConstraintsMatrix d = Some (BoxAffine.linearConstraintsMatrix_ this) /\
  OsqpEigen.lowerBound d = Some (BoxAffine.lower_bound_ this) /\
  OsqpEigen.upperBound d = Some (BoxAffine.upper_bound_ this) /\
  OsqpEigen.workspace (BoxAffine.solver_ this) = Some d.
Proof.
  intros Hc Hs d.
  destruct (session_invariant inf osqp qp this Hc Hs).
  assert (BoxAffine.n_ this = rows (A_qp qp) /\
          BoxAffine.m_ this
          = vrows (upper_bound qp) + rows (A_eq qp) + rows (A_ieq qp) /\
          OsqpEigen.numberOfVariables d = Some (rows (A_qp qp)) /\
          OsqpEigen.numberOfConstraints d
          = Some (vrows (upper_bound qp) + rows (A_eq qp) + rows (A_ieq qp)))
    as (Hn & Hm & Hnv & Hnc).
  { unfold d. clear - Hc Hs.
    induction Hs as [tl vb this E | this g _ IH | this g b this' _ IH E
                    | this _ IH].
    - destruct (new_OsqpEigenOpt_sizes qp tl vb this Hc E)
        as (H1 & H2 & H3 & H4 & _). done.
    - exact IH.
    - unfold BoxAffine.setGradientIeqConstraintAndInit in E.
      destruct (segment_assign _ _ _ _) as [u|]; [|discriminate].
      cbn in E. injection E as <-. exact IH.
    - unfold BoxAffine.solveProblem, OsqpEigen.solveProblem.
      destruct (OsqpEigen.workspace (BoxAffine.solver_ this)); [|done].
      destruct (osqp _) as [[ok x] st]. exact IH. }
  apply consistent_spec in Hc.
  destruct Hc as (Hq & He & Hi & Hcq & Hbq & Hl & Hu & Hce & Hbe & Hci & Hbi & Hsz).
  change (rows (stacked_matrix qp))
    with (vrows (upper_bound qp) + rows (A_eq qp) + rows (A_ieq qp)).
  change (cols (stacked_matrix qp)) with (rows (A_qp qp)).
  rewrite Hn, Hm.
  repeat (split; [try done|]); try done.
  - unfold vrows at 1. rewrite inv_upper_len0. unfold vrows in *. lia.
  - rewrite inv_lower0. unfold vrows at 1, vopp.
    rewrite !length_app, length_map, length_replicate. unfold vrows in *. lia.
Qed.

Lemma session_structure_sizes qp this :
  consistent qp = true -> session inf osqp qp this ->
  vrows (BoxAffine.lower_bound_ this) = vrows (BoxAffine.upper_bound_ this) /\
  vrows (BoxAffine.upper_bound_ this) < 2 ^ 32.
Proof.
  intros Hc Hs. destruct (session_invariant inf osqp qp this Hc Hs).
  apply consistent_spec in Hc.
  destruct Hc as (Hq & He & Hi & Hcq & Hbq & Hl & Hu & Hce & Hbe & Hci & Hbi & Hsz).
  rewrite inv_lower0. unfold vrows, vopp. rewrite inv_upper_len0.
  rewrite !length_app, length_map, length_replicate. unfold vrows in *. lia.
Qed.

(** The result of [setGradientIeqConstraintAndInit] when the passed vector
    is no longer than the bounds. *)
Lemma ieq_update_result this (g b : VecNd) :
  vrows (BoxAffine.lower_bound_ this) = vrows (BoxAffine.upper_bound_ this) ->
  vrows (BoxAffine.upper_bound_ this) < 2 ^ 32 ->
  (length b <= length (BoxAffine.upper_bound_ this))%nat ->
  let u' := take (length (BoxAffine.upper_bound_ this) - length b)
                 (BoxAffine.upper_bound_ this) ++ vopp b in
  BoxAffine.setGradientIeqConstraintAndInit this g b
  = Returns
      (BoxAffine.mkOpt (BoxAffine.alpha_ this) (BoxAffine.n_ this)
         (BoxAffine.m_ this) (BoxAffine.linearConstraintsMatrix_ this) g
         (BoxAffine.lower_bound_ this) u'
         (OsqpEigen.initSolver
            (OsqpEigen.clearSolver
               (OsqpEigen.setLinearConstraintsMatrix
                  (BoxAffine.linearConstraintsMatrix_ this)
                  (OsqpEigen.setBounds (BoxAffine.lower_bound_ this) u'
                     (OsqpEigen.setGradient g (BoxAffine.solver_ this))))))).
Proof.
  intros Hlu Hsz Hk u'.
  unfold BoxAffine.setGradientIeqConstraintAndInit.
  rewrite to_uint32_small by (unfold vrows in *; lia).
  assert (segment_assign (BoxAffine.upper_bound_ this)
            (vrows (BoxAffine.lower_bound_ this) - vrows b) (vrows b) (vopp b)
          = Some u') as ->; [|reflexivity].
  apply segment_assign_Some. rewrite vrows_vopp, Hlu. unfold vrows.
  repeat (split; [lia|]). unfold u'. f_equal.
  - f_equal. lia.
  - rewrite drop_ge; [by rewrite app_nil_r|]. lia.
Qed.

(** X10.  Two inequality-bound updates in a row: when the second vector is
    at least as long as the first (and no longer than the bounds), the
    first update leaves no trace in the problem: the adapter's gradient
    and bounds and the data handed to the solver are those of the second
    update alone. *)
Theorem setGradientIeqConstraintAndInit_last_wins qp this (g1 b1 g2 b2 : VecNd) :
  consistent qp = true -> session inf osqp qp this ->
  (length b1 <= length b2)%nat ->
  (length b2 <= length (BoxAffine.upper_bound_ this))%nat ->
  exists t1 t12 t2,
    BoxAffine.setGradientIeqConstraintAndInit this g1 b1 = Returns t1 /\
    BoxAffine.setGradientIeqConstraintAndInit t1 g2 b2 = Returns t12 /\
    BoxAffine.setGradientIeqConstraintAndInit this g2 b2 = Returns t2 /\
    BoxAffine.b_qp_ t12 = BoxAffine.b_qp_ t2 /\
    BoxAffine.lower_bound_ t12 = BoxAffine.lower_bound_ t2 /\
    BoxAffine.upper_bound_ t12 = BoxAffine.upper_bound_ t2 /\
    OsqpEigen.data (BoxAffine.solver_ t12) = OsqpEigen.data (BoxAffine.solver_ t2) /\
    OsqpEigen.workspace (BoxAffine.solver_ t12)
    = OsqpEigen.workspace (BoxAffine.solver_ t2).
Proof.
  intros Hc Hs H12 H2.
  destruct (session_structure_sizes qp this Hc Hs) as (Hlu & Hsz).
  set (L := length (BoxAffine.upper_bound_ this)) in *.
  pose proof (ieq_update_result this g1 b1 Hlu Hsz ltac:(lia)) as E1.
  pose proof (ieq_update_result this g2 b2 Hlu Hsz ltac:(lia)) as E2.
  cbv zeta in E1, E2. fold L in E1, E2.
  eexists _, _, _. split; [exact E1|].
  assert (length (take (L - length b1) (BoxAffine.upper_bound_ this) ++ vopp b1) = L)
    as HL1.
  { unfold vopp. rewrite length_app, length_take, length_map. fold L. lia. }
  split.
  { apply ieq_update_result; cbn [BoxAffine.lower_bound_ BoxAffine.upper_bound_].
    - rewrite Hlu. unfold vrows. rewrite HL1. done.
    - unfold vrows. rewrite HL1. exact Hsz.
    - rewrite HL1. lia. }
  split; [exact E2|].
  cbn [BoxAffine.lower_bound_ BoxAffine.upper_bound_ BoxAffine.b_qp_
       BoxAffine.solver_ BoxAffine.linearConstraintsMatrix_].
  rewrite HL1.
  assert (take (L - length b2)
               (take (L - length b1) (BoxAffine.upper_bound_ this) ++ vopp b1)
          = take (L - length b2) (BoxAffine.upper_bound_ this)) as ->.
  { rewrite take_app_le by (rewrite length_take; fold L; lia).
    rewrite take_take. f_equal. lia. }
  repeat split; reflexivity.
Qed.

End SessionFacts.

(** ** The example driver *)

Lemma to_uint32_range z : 0 <= to_uint32 z < 2 ^ 32.
Proof. unfold to_uint32. apply Z.mod_pos_bound. lia. Qed.

Lemma lookup_ramp p rate n (i : nat) :
  Z.of_nat i < n -> ramp p rate n !! i = Some (ramp_at p rate i).
Proof.
  intros Hi. unfold ramp.
  change (map (ramp_at p rate) (seq 0 (Z.to_nat n)))
    with (ramp_at p rate <$> seq 0 (Z.to_nat n)).
  rewrite list_lookup_fmap, lookup_seq_lt by lia. reflexivity.
Qed.

Lemma length_ramp p rate n : length (ramp p rate n) = Z.to_nat n.
Proof. unfold ramp. by rewrite length_map, length_seq. Qed.

(** The loop of [generate_ramp_vec] from index [j] on, [k] rounds: the
    entries below [j] are in place, the others hold anything. *)
Lemma ramp_loop p rate (k : nat) :
  p <> 0 ->
  forall (j : nat) (v : VecNd),
    (1 <= j)%nat -> length v = (j + k)%nat ->
    (forall i, (i < j)%nat -> v !! i = Some (ramp_at p rate i)) ->
    exists v',
      foldlM (ramp_step p rate) v (seqZ (Z.of_nat j) (Z.of_nat k)) = Some v' /\
      length v' = (j + k)%nat /\
      forall i, (i < j + k)%nat -> v' !! i = Some (ramp_at p rate i).
Proof.
  intros Hp. induction k as [|k IH]; intros j v Hj Hlen Hv.
  - exists v. split; [reflexivity|]. split; [done|].
    intros i Hi. apply Hv. lia.
  - rewrite seqZ_cons by lia. cbn [foldlM].
    destruct j as [|j']; [lia|].
    assert (ramp_step p rate v (Z.of_nat (S j'))
            = Some (<[S j' := ramp_at p rate (S j')]> v)) as ->.
    { unfold ramp_step. rewrite (proj2 (Z.eqb_neq p 0) Hp).
      unfold vec_get, vec_set, vrows. rewrite Hlen.
      replace (Z.to_nat (Z.of_nat (S j') - 1)) with j' by lia.
      rewrite (Hv j') by lia.
      replace (0 <=? Z.of_nat (S j') - 1) with true by (symmetry; apply Z.leb_le; lia).
      replace (Z.of_nat (S j') - 1 <? Z.of_nat (S j' + S k)) with true
        by (symmetry; apply Z.ltb_lt; lia).
      cbn [andb mbind option_bind].
      replace (0 <=? Z.of_nat (S j')) with true by (symmetry; apply Z.leb_le; lia).
      replace (Z.of_nat (S j') <? Z.of_nat (S j' + S k)) with true
        by (symmetry; apply Z.ltb_lt; lia).
      cbn [andb]. rewrite Nat2Z.id. reflexivity. }
    replace (Z.succ (Z.of_nat (S j'))) with (Z.of_nat (S (S j'))) by lia.
    replace (Z.pred (Z.of_nat (S k))) with (Z.of_nat k) by lia.
    destruct (IH (S (S j')) (<[S j' := ramp_at p rate (S j')]> v)) as (v' & E & L & H).
    + lia.
    + rewrite length_insert. lia.
    + intros i Hi. destruct (decide (i = S j')) as [->|Hne].
      * apply list_lookup_insert_eq. lia.
      * rewrite list_lookup_insert_ne by done. apply Hv. lia.
    + exists v'. split; [exact E|]. split; [lia|].
      intros i Hi. apply H. lia.
Qed.

Lemma new_VectorXd_length garbage n : length (new_VectorXd garbage n) = Z.to_nat n.
Proof. unfold new_VectorXd. by rewrite length_map, length_seq. Qed.

Lemma generate_ramp_vec_cases (garbage : nat -> float)
        (len ramp_half_period : Z) (ramp_rate : float) :
  let n := to_uint32 len in
  let p := to_uint32 ramp_half_period in
  (1 <= n /\ (n = 1 \/ 1 <= p) ->
   generate_ramp_vec garbage len ramp_half_period ramp_rate
   = Returns (ramp p ramp_rate n)) /\
  (n = 0 \/ (2 <= n /\ p = 0) ->
   generate_ramp_vec garbage len ramp_half_period ramp_rate = Undefined).
Proof.
  intros n p.
  pose proof (to_uint32_range len) as Hn. fold n in Hn.
  pose proof (to_uint32_range ramp_half_period) as Hpr. fold p in Hpr.
  unfold generate_ramp_vec. fold n p.
  split.
  - intros [Hn1 Hcase].
    unfold vec_set at 1, vrows. rewrite new_VectorXd_length.
    replace (0 <? Z.of_nat (Z.to_nat n)) with true by (symmetry; apply Z.ltb_lt; lia).
    change (0 <=? 0) with true. cbn [andb mbind option_bind].
    change (Z.to_nat 0) with 0%nat.
    assert (forall v : VecNd,
               length v = Z.to_nat n -> v !! 0%nat = Some 0%float ->
               foldlM (ramp_step p ramp_rate) v (seqZ 1 (n - 1))
               = Some (ramp p ramp_rate n)) as Hloop.
    { intros v Hlen H0. destruct (decide (n = 1)) as [E1|Hne].
      - rewrite E1. cbn [foldlM]. change (seqZ 1 (1 - 1)) with (@nil Z).
        cbn [foldlM]. f_equal. rewrite E1 in Hlen.
        destruct v as [|x [|y v]]; try discriminate.
        cbn in H0. injection H0 as ->. reflexivity.
      - assert (p <> 0) as Hp by lia.
        destruct (ramp_loop p ramp_rate (Z.to_nat (n - 1)) Hp 1 v) as (v' & E & L & H).
        + lia.
        + lia.
        + intros i Hi. replace i with 0%nat by lia. exact H0.
        + change (Z.of_nat 1) with 1 in E. rewrite Z2Nat.id in E by lia.
          rewrite E. f_equal. apply list_eq. intros i.
          destruct (decide (i < 1 + Z.to_nat (n - 1))%nat) as [Hi|Hi].
          * rewrite H by done. symmetry. apply lookup_ramp. lia.
          * rewrite !lookup_ge_None_2; [done| |].
            -- rewrite length_ramp. lia.
            -- lia. }
    rewrite Hloop; [reflexivity| |].
    + rewrite length_insert. apply new_VectorXd_length.
    + apply list_lookup_insert_eq. rewrite new_VectorXd_length. lia.
  - intros [E0 | [Hn2 Ep]].
    + rewrite E0. reflexivity.
    + unfold vec_set at 1, vrows. rewrite new_VectorXd_length.
      replace (0 <? Z.of_nat (Z.to_nat n)) with true by (symmetry; apply Z.ltb_lt; lia).
      change (0 <=? 0) with true. cbn [andb mbind option_bind].
      rewrite seqZ_cons by lia. cbn [foldlM].
      unfold ramp_step. rewrite Ep. reflexivity.
Qed.


(** X12.  [generate_ramp_vec] returns exactly when [len], as a 32-bit
    value, is at least 1 and, if it is more than 1, [ramp_half_period] is
    not zero; it never throws.  A zero length writes entry 0 of an empty
    vector and a zero half period divides by zero.  The vector returned
    has [len] entries and holds the staircase [ramp]: none of the
    uninitialised entries of the fresh vector survives. *)
Theorem generate_ramp_vec_returns_ramp (garbage : nat -> float)
        (len ramp_half_period : Z) (ramp_rate : float) :
  let n := to_uint32 len in
  let p := to_uint32 ramp_half_period in
  (1 <= n /\ (n = 1 \/ 1 <= p) ->
   generate_ramp_vec garbage len ramp_half_period ramp_rate
   = Returns (ramp p ramp_rate n)) /\
  (n = 0 \/ (2 <= n /\ p = 0) ->
   generate_ramp_vec garbage len ramp_half_period ramp_rate = Undefined) /\
  vrows (ramp p ramp_rate n) = n.
Proof.
  intros n p.
  destruct (generate_ramp_vec_cases garbage len ramp_half_period ramp_rate)
    as (HR & HU).
  split; [exact HR|]. split; [exact HU|].
  pose proof (to_uint32_range len). unfold vrows. rewrite length_ramp. lia.
Qed.

Lemma generate_ramp_vec_shape garbage len ramp_half_period ramp_rate v :
  generate_ramp_vec garbage len ramp_half_period ramp_rate = Returns v ->
  1 <= to_uint32 len /\
  v = ramp (to_uint32 ramp_half_period) ramp_rate (to_uint32 len).
Proof.
  intros E.
  pose proof (to_uint32_range len) as Hn.
  pose proof (to_uint32_range ramp_half_period) as Hp.
  pose proof (generate_ramp_vec_cases garbage len ramp_half_period ramp_rate)
    as (HR & HU).
  destruct (decide (to_uint32 len = 0)) as [E0|Hne0].
  { rewrite HU in E by (by left). discriminate. }
  destruct (decide (to_uint32 len = 1 \/ 1 <= to_uint32 ramp_half_period))
    as [Hc|Hc].
  - rewrite HR in E by (split; [lia|done]). injection E as <-. split; [lia|done].
  - rewrite HU in E by (right; lia). discriminate.
Qed.

(** X13.  The shape of what [generate_ramp_vec] returns: entry 0 is zero;
    every later entry is the entry before it when its index divided by the
    half period is even and the entry before it plus the rate when it is
    odd, so the vector never steps by anything but [0] or [ramp_rate]; and
    the entries before the first half period ends are all zero. *)
Theorem generate_ramp_vec_staircase (garbage : nat -> float)
        (len ramp_half_period : Z) (ramp_rate : float) (v : VecNd) :
  generate_ramp_vec garbage len ramp_half_period ramp_rate = Returns v ->
  let p := to_uint32 ramp_half_period in
  vrows v = to_uint32 len /\
  vec_get v 0 = Some 0%float /\
  (forall i, 1 <= i < vrows v ->
     exists prev,
       vec_get v (i - 1) = Some prev /\
       vec_get v i
       = Some (if (i / p) mod 2 =? 0 then prev else PrimFloat.add prev ramp_rate)) /\
  (forall i, 0 <= i < vrows v -> i < p -> vec_get v i = Some 0%float).
Proof.
  intros E p.
  destruct (generate_ramp_vec_shape garbage len ramp_half_period ramp_rate v E)
    as (Hn1 & ->).
  fold p. set (n := to_uint32 len) in *.
  assert (vrows (ramp p ramp_rate n) = n) as Hr.
  { unfold vrows. rewrite length_ramp. lia. }
  assert (forall i, 0 <= i < n ->
            vec_get (ramp p ramp_rate n) i
            = Some (ramp_at p ramp_rate (Z.to_nat i))) as Hget.
  { intros i Hi. unfold vec_get. rewrite Hr.
    replace (0 <=? i) with true by (symmetry; apply Z.leb_le; lia).
    replace (i <? n) with true by (symmetry; apply Z.ltb_lt; lia).
    cbn [andb]. apply lookup_ramp. lia. }
  split; [exact Hr|]. rewrite Hr. split; [|split].
  - rewrite Hget by lia. reflexivity.
  - intros i Hi. exists (ramp_at p ramp_rate (Z.to_nat (i - 1))).
    split; [apply Hget; lia|]. rewrite Hget by lia.
    replace (Z.to_nat i) with (S (Z.to_nat (i - 1))) by lia.
    cbn [ramp_at]. replace (Z.of_nat (S (Z.to_nat (i - 1)))) with i by lia.
    reflexivity.
  - intros i Hi Hip. rewrite Hget by lia. f_equal.
    assert (forall m : nat, Z.of_nat m < p -> ramp_at p ramp_rate m = 0%float) as H0.
    { induction m as [|m IH]; intros Hm; [reflexivity|].
      cbn [ramp_at]. rewrite Z.div_small by lia.
      change (0 mod 2 =? 0) with true. cbn. apply IH. lia. }
    apply H0. lia.
Qed.

Lemma vec_get_lookup (v : VecNd) (i : nat) :
  vec_get v (Z.of_nat i) = v !! i.
Proof.
  unfold vec_get, vrows.
  replace (0 <=? Z.of_nat i) with true by (symmetry; apply Z.leb_le; lia).
  cbn [andb]. rewrite Nat2Z.id.
  destruct (Z.ltb_spec (Z.of_nat i) (Z.of_nat (length v))) as [H|H]; [done|].
  symmetry. apply lookup_ge_None_2. lia.
Qed.

(** The loop of [eigen2stdVec] on a vector shorter than [2^32]: whenever
    it returns, it has appended the rest of the vector. *)
Lemma eigen2stdVec_loop_result (v : VecNd) (fuel : nat) :
  vrows v < 2 ^ 32 ->
  forall (i : nat) acc r,
    (i <= length v)%nat ->
    eigen2stdVec_loop fuel v (Z.of_nat i) acc = Some r ->
    r = acc ++ drop i v.
Proof.
  intros Hsz. unfold vrows in Hsz.
  induction fuel as [|fuel IH]; intros i acc r Hi E; [discriminate|].
  cbn [eigen2stdVec_loop] in E. unfold vrows in E.
  destruct (Z.ltb_spec (Z.of_nat i) (Z.of_nat (length v))) as [Hlt|Hge].
  - rewrite vec_get_lookup in E.
    destruct (v !! i) as [x|] eqn:Ex; [|discriminate].
    cbn [mbind option_bind] in E.
    rewrite to_uint32_small in E by lia.
    replace (Z.of_nat i + 1) with (Z.of_nat (S i)) in E by lia.
    apply IH in E; [|lia]. rewrite E, (drop_S v x i Ex), <- app_assoc. reflexivity.
  - injection E as <-. rewrite drop_ge by lia. by rewrite app_nil_r.
Qed.

(** With one more round of fuel than entries left, the loop returns. *)
Lemma eigen2stdVec_loop_returns (v : VecNd) :
  vrows v < 2 ^ 32 ->
  forall (k i : nat) acc,
    (i + k = length v)%nat ->
    exists r, eigen2stdVec_loop (S k) v (Z.of_nat i) acc = Some r.
Proof.
  intros Hsz. unfold vrows in Hsz.
  induction k as [|k IH]; intros i acc Hik; cbn [eigen2stdVec_loop]; unfold vrows.
  - replace (Z.of_nat i <? Z.of_nat (length v)) with false
      by (symmetry; apply Z.ltb_ge; lia).
    by eexists.
  - replace (Z.of_nat i <? Z.of_nat (length v)) with true
      by (symmetry; apply Z.ltb_lt; lia).
    rewrite vec_get_lookup.
    destruct (lookup_lt_is_Some_2 v i ltac:(lia)) as [x ->].
    cbn [mbind option_bind]. rewrite to_uint32_small by lia.
    replace (Z.of_nat i + 1) with (Z.of_nat (S i)) by lia.
    apply IH. lia.
Qed.

(** On a vector of [2^32] entries or more the counter wraps before it
    reaches the size: no amount of fuel ends the loop. *)
Lemma eigen2stdVec_loop_wraps (v : VecNd) (fuel : nat) :
  2 ^ 32 <= vrows v ->
  forall i acc, 0 <= i < 2 ^ 32 -> eigen2stdVec_loop fuel v i acc = None.
Proof.
  intros Hsz. induction fuel as [|fuel IH]; intros i acc Hi; [reflexivity|].
  cbn [eigen2stdVec_loop].
  replace (i <? vrows v) with true by (symmetry; apply Z.ltb_lt; lia).
  replace i with (Z.of_nat (Z.to_nat i)) at 1 by lia.
  rewrite vec_get_lookup.
  destruct (lookup_lt_is_Some_2 v (Z.to_nat i)) as [x ->];
    [unfold vrows in Hsz; lia|].
  cbn [mbind option_bind]. apply IH. apply to_uint32_range.
Qed.

(** X14.  [eigen2stdVec] returns exactly on vectors of fewer than [2^32]
    entries, and what it returns is the entries of its argument in order:
    one more round of fuel than the vector has entries is enough, and on a
    longer vector the 32-bit counter wraps around below the 64-bit size,
    so that no amount of fuel makes the loop end. *)
Theorem eigen2stdVec_returns_copy_iff (eigen_vec : VecNd) (ret_vec : list float) :
  ((exists fuel, eigen2stdVec fuel eigen_vec = Some ret_vec)
   <-> vrows eigen_vec < 2 ^ 32 /\ ret_vec = eigen_vec) /\
  (vrows eigen_vec < 2 ^ 32 ->
   eigen2stdVec (S (length eigen_vec)) eigen_vec = Some eigen_vec) /\
  (2 ^ 32 <= vrows eigen_vec ->
   forall fuel, eigen2stdVec fuel eigen_vec = None).
Proof.
  assert (vrows eigen_vec < 2 ^ 32 ->
          eigen2stdVec (S (length eigen_vec)) eigen_vec = Some eigen_vec) as Hret.
  { intros Hsz. unfold eigen2stdVec.
    destruct (eigen2stdVec_loop_returns eigen_vec Hsz (length eigen_vec) 0 [])
      as [r E]; [lia|].
    change (Z.of_nat 0) with 0 in E. rewrite E. f_equal.
    apply (eigen2stdVec_loop_result eigen_vec _ Hsz 0 [] r) in E; [|lia].
    exact E. }
  assert (2 ^ 32 <= vrows eigen_vec ->
          forall fuel, eigen2stdVec fuel eigen_vec = None) as Hwrap.
  { intros Hsz fuel. apply eigen2stdVec_loop_wraps; [exact Hsz|lia]. }
  split; [|split; assumption].
  split.
  - intros [fuel E].
    destruct (Z.lt_ge_cases (vrows eigen_vec) (2 ^ 32)) as [Hsz|Hsz].
    + split; [exact Hsz|].
      apply (eigen2stdVec_loop_result eigen_vec fuel Hsz 0 [] ret_vec); [lia|].
      exact E.
    + rewrite Hwrap in E by exact Hsz. discriminate.
  - intros [Hsz ->]. eexists. apply Hret, Hsz.
Qed.

Lemma vsegment_ramp p rate n (i h : Z) :
  0 <= n -> 0 <= i -> 0 <= h ->
  vsegment (ramp p rate n) i h
  = if i + h <=? n
    then Some (map (ramp_at p rate) (seq (Z.to_nat i) (Z.to_nat h)))
    else None.
Proof.
  intros Hn Hi Hh. unfold vsegment, vrows. rewrite length_ramp, Z2Nat.id by lia.
  replace (0 <=? i) with true by (symmetry; apply Z.leb_le; lia).
  replace (0 <=? h) with true by (symmetry; apply Z.leb_le; lia).
  cbn [andb]. destruct (Z.leb_spec (i + h) n) as [Hle|Hgt]; [|reflexivity].
  f_equal. unfold ramp.
  change (map (ramp_at p rate)) with (fmap (M:=list) (ramp_at p rate)).
  rewrite <- fmap_drop, <- fmap_take. f_equal.
  rewrite drop_seq, take_seq. f_equal. lia.
Qed.

(** X15.  The reference windows of [main]: the reference is generated
    with length [horizon + n_simulate_steps], a 32-bit sum, and step [i]
    takes [segment(i, horizon)] of it.  When the sum does not wrap, every
    window of every step [i <= n_simulate_steps] lies inside the reference
    and holds the [horizon] values of the staircase from index [i] on.
    When the sum wraps, the reference is shorter than [horizon] and no
    window lies inside it. *)
Theorem reference_windows (garbage : nat -> float)
        (horizon n_simulate_steps ramp_half_period : Z) (ramp_rate : float)
        (Y_d_full : VecNd) (i : Z) :
  0 <= horizon < 2 ^ 32 -> 0 <= n_simulate_steps < 2 ^ 32 ->
  generate_ramp_vec garbage (horizon + n_simulate_steps) ramp_half_period ramp_rate
  = Returns Y_d_full ->
  0 <= i <= n_simulate_steps ->
  (horizon + n_simulate_steps < 2 ^ 32 ->
   exists Y_d,
     vsegment Y_d_full i horizon = Some Y_d /\
     vrows Y_d = horizon /\
     Y_d = map (ramp_at (to_uint32 ramp_half_period) ramp_rate)
               (seq (Z.to_nat i) (Z.to_nat horizon))) /\
  (2 ^ 32 <= horizon + n_simulate_steps ->
   vrows Y_d_full < horizon /\ vsegment Y_d_full i horizon = None).
Proof.
  intros Hh Hs E Hi.
  destruct (generate_ramp_vec_shape _ _ _ _ _ E) as (Hn1 & ->).
  pose proof (to_uint32_range (horizon + n_simulate_steps)) as Hr.
  rewrite vsegment_ramp by lia. split.
  - intros Hsum. rewrite to_uint32_small by lia.
    replace (i + horizon <=? horizon + n_simulate_steps) with true
      by (symmetry; apply Z.leb_le; lia).
    eexists. split; [reflexivity|]. split; [|reflexivity].
    unfold vrows. rewrite length_map, length_seq. lia.
  - intros Hsum.
    assert (to_uint32 (horizon + n_simulate_steps)
            = horizon + n_simulate_steps - 2 ^ 32) as Ew.
    { unfold to_uint32. symmetry.
      apply (Z.mod_unique_pos _ _ 1). - lia. - lia. }
    unfold vrows. rewrite length_ramp, Z2Nat.id by lia. rewrite Ew.
    split; [lia|].
    replace (i + horizon <=? horizon + n_simulate_steps - 2 ^ 32) with false
      by (symmetry; apply Z.leb_gt; lia).
    reflexivity.
Qed.

(** ** The further properties at concrete inputs *)

Lemma setSparseBlock_target_2x2_block_1x2 :
  setSparseBlock target_2x2 block_1x2 1 0
  = Returns (with_block target_2x2 block_1x2 1 0).
Proof. vm_compute. reflexivity. Defined.

Lemma setSparseBlock_keeps_wf_witness :
  0 <= 1 < 2 ^ 32 /\ 0 <= 0 < 2 ^ 32 /\ wf_sparse target_2x2 = true /\
  exists out',
    setSparseBlock target_2x2 block_1x2 1 0 = Returns out' /\
    wf_sparse out' = true /\ rows out' = 2 /\ cols out' = 2.
Proof.
  split; [lia|]. split; [lia|]. split; [reflexivity|].
  exists (with_block target_2x2 block_1x2 1 0).
  split; [exact setSparseBlock_target_2x2_block_1x2|].
  exact (setSparseBlock_keeps_wf target_2x2 block_1x2 1 0 _
           ltac:(lia) ltac:(lia) eq_refl setSparseBlock_target_2x2_block_1x2).
Defined.

Lemma setSparseBlock_commute_witness :
  exists M1 M12 M2,
    setSparseBlock target_2x2 block_1x2 1 0 = Returns M1 /\
    setSparseBlock M1 block_1x1 0 1 = Returns M12 /\
    setSparseBlock target_2x2 block_1x1 0 1 = Returns M2 /\
    setSparseBlock M2 block_1x2 1 0 = Returns M12.
Proof.
  assert (setSparseBlock (with_block target_2x2 block_1x2 1 0) block_1x1 0 1
          = Returns (with_block (with_block target_2x2 block_1x2 1 0) block_1x1 0 1))
    as E2 by (vm_compute; reflexivity).
  destruct (setSparseBlock_commute target_2x2 block_1x2 1 0 block_1x1 0 1 _ _
              ltac:(lia) ltac:(lia) ltac:(lia) ltac:(lia)
              setSparseBlock_target_2x2_block_1x2 E2) as (M2 & E3 & E4).
  exists (with_block target_2x2 block_1x2 1 0),
         (with_block (with_block target_2x2 block_1x2 1 0) block_1x1 0 1), M2.
  split; [exact setSparseBlock_target_2x2_block_1x2|].
  split; [exact E2|]. split; [exact E3|exact E4].
Defined.

Lemma setSparseBlock_empty_block_witness :
  stored block_4x1 = ∅ /\
  ~ fits target_3x5 block_4x1 0 2 /\
  (exists cout,
     setSparseBlock target_3x5 block_4x1 0 2 = Throws cout block_overflow_what) /\
  fits target_3x5 (emptySparse 0 0) 3 5 /\
  setSparseBlock target_3x5 (emptySparse 0 0) 3 5 = Returns target_3x5.
Proof.
  assert (~ fits target_3x5 block_4x1 0 2) as Hnf by (unfold fits; simpl; lia).
  assert (fits target_3x5 (emptySparse 0 0) 3 5) as Hf by (unfold fits; simpl; lia).
  split; [reflexivity|]. split; [exact Hnf|]. split.
  - exact (proj1 (proj2 (setSparseBlock_empty_block target_3x5 block_4x1 0 2
                           ltac:(lia) ltac:(lia) eq_refl)) Hnf).
  - split; [exact Hf|].
    exact (proj1 (setSparseBlock_empty_block target_3x5 (emptySparse 0 0) 3 5
                    ltac:(lia) ltac:(lia) eq_refl) Hf).
Defined.

Lemma setSparseBlock_twice_undefined_witness :
  nonzeros block_1x2 <> [] /\
  exists out',
    setSparseBlock target_2x2 block_1x2 1 0 = Returns out' /\
    setSparseBlock out' block_1x2 1 0 = Undefined.
Proof.
  assert (nonzeros block_1x2 <> []) as Hne by (vm_compute; discriminate).
  split; [exact Hne|].
  exists (with_block target_2x2 block_1x2 1 0).
  split; [exact setSparseBlock_target_2x2_block_1x2|].
  exact (setSparseBlock_twice_undefined target_2x2 block_1x2 1 0 _
           ltac:(lia) ltac:(lia) Hne setSparseBlock_target_2x2_block_1x2).
Defined.

Lemma new_OsqpEigenOpt_returns_iff_blocks_fit_witness :
  0 <= rows (A_eq qp_one_eq_one_ieq) /\ 0 <= rows (A_ieq qp_one_eq_one_ieq) /\
  vrows (upper_bound qp_one_eq_one_ieq) + rows (A_eq qp_one_eq_one_ieq) < 2 ^ 32 /\
  blocks_fit qp_one_eq_one_ieq /\
  BoxAffine.upper_bound_ session_one
  = upper_bound qp_one_eq_one_ieq ++ vopp (b_eq qp_one_eq_one_ieq)
    ++ vopp (b_ieq qp_one_eq_one_ieq).
Proof.
  assert (0 <= rows (A_eq qp_one_eq_one_ieq)) as H1 by (simpl; lia).
  assert (0 <= rows (A_ieq qp_one_eq_one_ieq)) as H2 by (simpl; lia).
  assert (vrows (upper_bound qp_one_eq_one_ieq) + rows (A_eq qp_one_eq_one_ieq)
          < 2 ^ 32) as H3 by (vm_compute; reflexivity).
  destruct (new_OsqpEigenOpt_returns_iff_blocks_fit infinity qp_one_eq_one_ieq
              0%float false H1 H2 H3) as (Hiff & _ & _ & Hres).
  split; [exact H1|]. split; [exact H2|]. split; [exact H3|]. split.
  - apply Hiff. exists session_one. exact new_session_one.
  - exact (proj2 (proj2 (proj2 (proj2 (Hres session_one new_session_one))))).
Defined.

Lemma initializeSolver_again_never_returns_witness :
  consistent qp_one_eq_one_ieq = true /\
  session infinity osqp_trivial qp_one_eq_one_ieq session_one /\
  upper_bound qp_one_eq_one_ieq <> [] /\
  (BoxAffine.initializeSolver infinity session_one qp_one_eq_one_ieq 0%float false
   = Undefined \/
   exists cout,
     BoxAffine.initializeSolver infinity session_one qp_one_eq_one_ieq 0%float false
     = Throws cout block_overflow_what).
Proof.
  assert (upper_bound qp_one_eq_one_ieq <> []) as Hne by (simpl; discriminate).
  split; [exact consistent_qp_one|]. split; [exact session_session_one|].
  split; [exact Hne|].
  exact (initializeSolver_again_never_returns infinity osqp_trivial
           qp_one_eq_one_ieq session_one qp_one_eq_one_ieq 0%float false
           consistent_qp_one session_session_one Hne Hne).
Defined.

Lemma session_structure_fixed_witness :
  consistent qp_one_eq_one_ieq = true /\
  session infinity osqp_trivial qp_one_eq_one_ieq
          (BoxAffine.solveProblem osqp_trivial
             (BoxAffine.setGradientAndInit session_one [7%float])).2 /\
  BoxAffine.linearConstraintsMatrix_
    (BoxAffine.solveProblem osqp_trivial
       (BoxAffine.setGradientAndInit session_one [7%float])).2
  = stacked_matrix qp_one_eq_one_ieq.
Proof.
  assert (session infinity osqp_trivial qp_one_eq_one_ieq
            (BoxAffine.solveProblem osqp_trivial
               (BoxAffine.setGradientAndInit session_one [7%float])).2) as Hs.
  { apply session_solve, session_gradient. exact session_session_one. }
  split; [exact consistent_qp_one|]. split; [exact Hs|].
  exact (proj1 (session_structure_fixed infinity osqp_trivial qp_one_eq_one_ieq _
                  consistent_qp_one Hs)).
Defined.

Lemma setGradientIeqConstraintAndInit_last_wins_witness :
  consistent qp_one_eq_one_ieq = true /\
  session infinity osqp_trivial qp_one_eq_one_ieq session_one /\
  exists t1 t12 t2,
    BoxAffine.setGradientIeqConstraintAndInit session_one [7%float] [4%float]
    = Returns t1 /\
    BoxAffine.setGradientIeqConstraintAndInit t1 [9%float] [8%float; 6%float]
    = Returns t12 /\
    BoxAffine.setGradientIeqConstraintAndInit session_one [9%float]
                                              [8%float; 6%float]
    = Returns t2 /\
    BoxAffine.upper_bound_ t12 = BoxAffine.upper_bound_ t2.
Proof.
  split; [exact consistent_qp_one|]. split; [exact session_session_one|].
  destruct (setGradientIeqConstraintAndInit_last_wins infinity osqp_trivial
              qp_one_eq_one_ieq session_one [7%float] [4%float] [9%float]
              [8%float; 6%float] consistent_qp_one session_session_one)
    as (t1 & t12 & t2 & E1 & E12 & E2 & _ & _ & Hu & _).
  - vm_compute. lia.
  - vm_compute. lia.
  - exists t1, t12, t2. split; [exact E1|]. split; [exact E12|].
    split; [exact E2|exact Hu].
Defined.

Lemma generate_ramp_vec_staircase_witness :
  generate_ramp_vec (fun _ => 7%float) 5 2 0.5%float
  = Returns [0%float; 0%float; 0.5%float; 1%float; 1%float] /\
  vec_get [0%float; 0%float; 0.5%float; 1%float; 1%float] 0 = Some 0%float /\
  vrows [0%float; 0%float; 0.5%float; 1%float; 1%float] = to_uint32 5.
Proof.
  assert (generate_ramp_vec (fun _ => 7%float) 5 2 0.5%float
          = Returns [0%float; 0%float; 0.5%float; 1%float; 1%float]) as E
    by (vm_compute; reflexivity).
  split; [exact E|].
  destruct (generate_ramp_vec_staircase (fun _ => 7%float) 5 2 0.5%float _ E)
    as (Hn & H0 & _).
  split; [exact H0|exact Hn].
Defined.

(** The constants of [main]: a horizon of 100, 30 steps, a half period of
    20 and a rate of 0.1 (as a double); the window of the last step. *)
Lemma reference_windows_witness :
  0 <= 100 < 2 ^ 32 /\ 0 <= 30 < 2 ^ 32 /\ 0 <= 29 <= 30 /\
  generate_ramp_vec (fun _ => 7%float) (100 + 30) 20 0x1.999999999999ap-4%float
  = Returns (ramp 20 0x1.999999999999ap-4%float 130) /\
  exists Y_d,
    vsegment (ramp 20 0x1.999999999999ap-4%float 130) 29 100 = Some Y_d /\
    vrows Y_d = 100.
Proof.
  assert (generate_ramp_vec (fun _ => 7%float) (100 + 30) 20
                            0x1.999999999999ap-4%float
          = Returns (ramp 20 0x1.999999999999ap-4%float 130)) as E
    by (vm_compute; reflexivity).
  split; [lia|]. split; [lia|]. split; [lia|]. split; [exact E|].
  destruct (reference_windows (fun _ => 7%float) 100 30 20
              0x1.999999999999ap-4%float _ 29
              ltac:(lia) ltac:(lia) E ltac:(lia)) as [H _].
  destruct H as (Y_d & Ev & Hr & _); [lia|].
  exists Y_d. split; [exact Ev|exact Hr].
Defined.

